(** * minio-go [io.go]: the lazy seekable object stream and the temporary file

    A shallow embedding of [objectReadSeeker] (constructor, [Read], [Seek],
    [Size]) and of [tempFile] ([newTempFile], [Close],
    [cleanupStaleTempfiles]).  Every method takes the receiver and the state
    of the world it acts on (the open response bodies of the object store, or
    the file system) and returns its Go results with the new receiver and the
    new world.  The per-instance mutex only serialises calls; the embedding
    is sequential, so [Lock]/[Unlock] have no counterpart. *)

From Stdlib Require Import ZArith Lia Init.Byte Ascii.
From stdpp Require Import base option list strings pretty gmap sorting.

Local Open Scope Z_scope.

(** ** Go's [error] values

    An [error] result is [option error]; [None] is Go's [nil]. *)
Inductive error : Type :=
| EOF                         (* io.EOF *)
| ErrBodyClosed               (* read on a response body that was closed *)
| ErrTransport (code : nat)   (* the request or the connection failed *)
| ErrNoSuchKey                (* the object store has no such object *)
| ErrBadPattern               (* filepath.ErrBadPattern *)
| ErrNotExist                 (* os: no such file or directory *)
| ErrNotEmpty                 (* os: directory not empty *)
| ErrPermission               (* os: operation not permitted *)
| ErrFileClosed               (* os: file already closed *)
| ErrExist.                   (* os: file exists *)

#[global] Instance error_eq_dec : EqDecision error.
Proof. solve_decision. Defined.

Definition is_EOF (e : option error) : bool :=
  match e with Some EOF => true | _ => false end.

(** ** The object metadata, [ObjectStat]

    Only its [Size] field is read by [io.go]. *)
Module ObjectStat.
Record t : Type := mk { Size : Z }.
(** Go's zero value of the struct. *)
Definition zero : t := {| Size := 0 |}.
End ObjectStat.

(** ** The remote side: response bodies and the two calls of [API]

    [getObject] and [headObject] belong to the request layer of the library;
    [io.go] only calls them.  A response body is the [io.ReadCloser] that
    [getObject] hands out. *)

(** What one [Read] of a response body does when the body is open and has
    bytes left: deliver at most [S k] bytes, or fail after [k] bytes.  What
    a read of the body answers once it is closed depends on the body: the
    bodies of net/http answer an error ("read on closed response body"),
    except the empty body [http.NoBody], whose [Close] does nothing and
    which goes on answering io.EOF. *)
Inductive ReadEvent : Type :=
| Chunk (k : nat)
| Fail (code k : nat).

Record Body : Type := mkBody {
  b_data : list byte;        (* bytes not delivered yet *)
  b_plan : list ReadEvent;   (* behaviour of the coming reads; [] = deliver all *)
  b_eof_with_data : bool;    (* io.EOF comes with the last bytes, or on the next read *)
  b_err : option error;      (* a failed body keeps failing *)
  b_closed : bool;
  b_after_close : error      (* what a read of the closed body answers *)
}.

Inductive FetchOutcome : Type :=
| FetchFails (code : nat)
| FetchOk (plan : list ReadEvent) (eof_with_data : bool) (after_close : error).

(** The [api] field of the stream: the remote objects, and how the i-th data
    request and the i-th metadata request behave. *)
Record API : Type := mkAPI {
  objects : string -> string -> option (list byte);
  fetch_script : nat -> FetchOutcome;
  head_script : nat -> option nat
}.

(** The mutable part: every body ever opened (a reader is an index into
    [bodies]), and the number of data and metadata requests made so far. *)
Record World : Type := mkWorld {
  bodies : list Body;
  fetches : nat;
  heads : nat
}.

Definition World0 : World := {| bodies := []; fetches := 0; heads := 0 |}.

Definition set_body (h : nat) (b : Body) (w : World) : World :=
  {| bodies := <[h := b]> (bodies w); fetches := fetches w; heads := heads w |}.

(** Number of fetch handles opened so far, and number of them that are closed. *)
Definition opens (w : World) : nat := length (bodies w).
Definition closes (w : World) : nat :=
  length (filter (fun b => b_closed b = true) (bodies w)).

(** Modelled from the spec: FetchRange "returns a readable byte source
    yielding bytes from startOffset to end-of-object"; a [length] of 0 asks
    for everything up to the end. *)
Definition byte_range (offset length : Z) (content : list byte) : list byte :=
  let tail := drop (Z.to_nat offset) content in
  if length =? 0 then tail else take (Z.to_nat length) tail.

(** Modelled from the spec: [API.getObject], the FetchRange capability.  On
    failure no body is opened and the reader is nil. *)
Definition getObject (a : API) (bucket object : string) (offset length : Z)
    (w : World) : (option nat * ObjectStat.t * option error) * World :=
  let w1 := {| bodies := bodies w; fetches := S (fetches w); heads := heads w |} in
  match fetch_script a (fetches w) with
  | FetchFails code => ((None, ObjectStat.zero, Some (ErrTransport code)), w1)
  | FetchOk plan eof_with_data after_close =>
      match objects a bucket object with
      | None => ((None, ObjectStat.zero, Some ErrNoSuchKey), w1)
      | Some content =>
          let b := {| b_data := byte_range offset length content;
                      b_plan := plan; b_eof_with_data := eof_with_data;
                      b_err := None; b_closed := false;
                      b_after_close := after_close |} in
          ((Some (List.length (bodies w)),
            {| ObjectStat.Size := Z.of_nat (List.length content) |}, None),
           {| bodies := bodies w ++ [b]; fetches := S (fetches w); heads := heads w |})
      end
  end.

(** Modelled from the spec: [API.headObject], the FetchMetadata capability;
    "failure surfaces the underlying metadata-query error with a zero size". *)
Definition headObject (a : API) (bucket object : string) (w : World)
    : (ObjectStat.t * option error) * World :=
  let w1 := {| bodies := bodies w; fetches := fetches w; heads := S (heads w) |} in
  match head_script a (heads w) with
  | Some code => ((ObjectStat.zero, Some (ErrTransport code)), w1)
  | None =>
      match objects a bucket object with
      | None => ((ObjectStat.zero, Some ErrNoSuchKey), w1)
      | Some content =>
          (({| ObjectStat.Size := Z.of_nat (List.length content) |}, None), w1)
      end
  end.

(** [Read] of a response body with a buffer of [cap] bytes: the bytes
    delivered, the error, and the body afterwards. *)
Definition deliver (n : nat) (b : Body) (plan : list ReadEvent)
    : list byte * option error * Body :=
  let rest := drop n (b_data b) in
  let eof := match rest with [] => b_eof_with_data b | _ => false end in
  (take n (b_data b), (if eof then Some EOF else None),
   {| b_data := rest; b_plan := plan; b_eof_with_data := b_eof_with_data b;
      b_err := None; b_closed := false; b_after_close := b_after_close b |}).

Definition body_Read (b : Body) (cap : nat) : list byte * option error * Body :=
  if b_closed b then ([], Some (b_after_close b), b)
  else match b_err b with
  | Some e => ([], Some e, b)
  | None =>
    match b_data b with
    | [] => ([], Some EOF, b)
    | _ :: _ =>
      match cap with
      | O => ([], None, b)
      | S _ =>
        match b_plan b with
        | [] => deliver cap b []
        | Chunk k :: plan => deliver (Nat.min (S k) cap) b plan
        | Fail code k :: plan =>
            let n := Nat.min k cap in
            (take n (b_data b), Some (ErrTransport code),
             {| b_data := drop n (b_data b); b_plan := plan;
                b_eof_with_data := b_eof_with_data b;
                b_err := Some (ErrTransport code); b_closed := false;
                b_after_close := b_after_close b |})
        end
      end
    end
  end.

Definition body_Close (b : Body) : Body :=
  {| b_data := b_data b; b_plan := b_plan b;
     b_eof_with_data := b_eof_with_data b; b_err := b_err b; b_closed := true;
     b_after_close := b_after_close b |}.

(** [io.Copy(ioutil.Discard, reader)]: [ioutil.Discard] reads into a scratch
    buffer of 8192 bytes until a read reports an error (io.EOF included);
    the results are dropped.  A body with [k] bytes left needs at most
    [S k] reads. *)
Definition discard_buffer_size : nat := 8 * 1024.

Fixpoint drain (fuel : nat) (b : Body) : Body :=
  match fuel with
  | O => b
  | S fuel' =>
      match body_Read b discard_buffer_size with
      | (_, Some _, b') => b'
      | (_, None, b') => drain fuel' b'
      end
  end.

Definition io_Copy_Discard (b : Body) : Body := drain (S (List.length (b_data b))) b.

(** ** [objectReadSeeker] *)
Record objectReadSeeker : Type := mkORS {
  api : API;
  reader : option nat;      (* io.ReadCloser, nil until the first fetch *)
  isRead : bool;
  stat : ObjectStat.t;
  offset : Z;               (* int64 *)
  bucketName : string;
  objectName : string
}.

Definition newObjectReadSeeker (a : API) (bucket object : string) : objectReadSeeker :=
  {| api := a; reader := None; isRead := false; stat := ObjectStat.zero;
     offset := 0; bucketName := bucket; objectName := object |}.

Definition set_offset (off : Z) (r : objectReadSeeker) : objectReadSeeker :=
  {| api := api r; reader := reader r; isRead := isRead r; stat := stat r;
     offset := off; bucketName := bucketName r; objectName := objectName r |}.

Definition set_stat (st : ObjectStat.t) (r : objectReadSeeker) : objectReadSeeker :=
  {| api := api r; reader := reader r; isRead := isRead r; stat := st;
     offset := offset r; bucketName := bucketName r; objectName := objectName r |}.

Definition set_reader (rd : option nat) (r : objectReadSeeker) : objectReadSeeker :=
  {| api := api r; reader := rd; isRead := isRead r; stat := stat r;
     offset := offset r; bucketName := bucketName r; objectName := objectName r |}.

Definition set_isRead (flag : bool) (r : objectReadSeeker) : objectReadSeeker :=
  {| api := api r; reader := reader r; isRead := flag; stat := stat r;
     offset := offset r; bucketName := bucketName r; objectName := objectName r |}.

(** The caller's buffer after the body wrote [data] at its front. *)
Definition fill (p data : list byte) : list byte :=
  data ++ drop (List.length data) p.

(** What a call of [Read] hands back: [n], [err], the buffer [p] as the call
    left it, the receiver and the world. *)
Record ReadResult : Type := mkRR {
  rr_n : Z;
  rr_err : option error;
  rr_buf : list byte;
  rr_stream : objectReadSeeker;
  rr_world : World
}.

(** The bytes a caller gets from a [Read]: [p[:n]]. *)
Definition rr_bytes (res : ReadResult) : list byte :=
  take (Z.to_nat (rr_n res)) (rr_buf res).

(** The second half of [Read], from [n, err := r.reader.Read(p)] on.
    [None] stands for the nil dereference of [r.reader] when [isRead] is set
    and no body is held; no call sequence that starts at
    [newObjectReadSeeker] gets there (see [run_total]). *)
Definition Read_body (r : objectReadSeeker) (p : list byte) (w : World)
    : option ReadResult :=
  h ← reader r;
  b ← bodies w !! h;
  let '(data, err, b1) := body_Read b (List.length p) in
  let n := Z.of_nat (List.length data) in
  if is_EOF err then
    Some (mkRR n err (fill p data) r
            (set_body h (body_Close (io_Copy_Discard b1)) w))
  else if bool_decide (err ≠ None) then
    Some (mkRR 0 err (fill p data) r
            (set_body h (body_Close (io_Copy_Discard b1)) w))
  else Some (mkRR n None (fill p data) r (set_body h b1 w)).

(** [Read]. *)
Definition Read (r : objectReadSeeker) (p : list byte) (w : World) : option ReadResult :=
  if negb (isRead r) then
    match getObject (api r) (bucketName r) (objectName r) (offset r) 0 w with
    | ((_, _, Some err), w1) => Some (mkRR 0 (Some err) p r w1)
    | ((rd, _, None), w1) => Read_body (set_isRead true (set_reader rd r)) p w1
    end
  else Read_body r p w.

(** The first half of [Read], up to [r.reader.Read(p)]: the stream and the
    world in which the body is read, or [None] when the fetch could not be
    started and [Read] has returned. *)
Definition fetched (r : objectReadSeeker) (w : World)
    : option (objectReadSeeker * World) :=
  if negb (isRead r) then
    match getObject (api r) (bucketName r) (objectName r) (offset r) 0 w with
    | ((_, _, Some _), _) => None
    | ((rd, _, None), w1) => Some (set_isRead true (set_reader rd r), w1)
    end
  else Some (r, w).

(** [Seek]: [whence] is a Go [int]; it is not looked at. *)
Definition Seek (r : objectReadSeeker) (offset : Z) (whence : Z)
    : (Z * option error) * objectReadSeeker :=
  ((offset, None), set_offset offset r).

(** [Size]. *)
Definition Size (r : objectReadSeeker) (w : World)
    : (Z * option error) * objectReadSeeker * World :=
  let '((objectSt, err), w1) := headObject (api r) (bucketName r) (objectName r) w in
  let r1 := set_stat objectSt r in
  ((ObjectStat.Size (stat r1), err), r1, w1).

(** ** Call sequences on one stream *)
Inductive Op : Type :=
| OpRead (p : list byte)
| OpSeek (offset whence : Z)
| OpSize.

(** What a caller sees of one call: the bytes [p[:n]] of a [Read], and the
    error. *)
Definition Obs : Type := (list byte * option error)%type.

Definition step (op : Op) (r : objectReadSeeker) (w : World)
    : option (Obs * objectReadSeeker * World) :=
  match op with
  | OpRead p =>
      res ← Read r p w;
      Some ((rr_bytes res, rr_err res), rr_stream res, rr_world res)
  | OpSeek off whence =>
      let '((_, err), r1) := Seek r off whence in Some (([], err), r1, w)
  | OpSize =>
      let '((_, err), r1, w1) := Size r w in Some (([], err), r1, w1)
  end.

Fixpoint run (ops : list Op) (r : objectReadSeeker) (w : World)
    : option (list Obs * objectReadSeeker * World) :=
  match ops with
  | [] => Some ([], r, w)
  | op :: ops' =>
      '(o, r1, w1) ← step op r w;
      '(os, r2, w2) ← run ops' r1 w1;
      Some (o :: os, r2, w2)
  end.

(** ** The far ends and buffers of the examples *)

(** The object "blob" of bucket "bucket" holds the ten bytes "0123456789". *)
Definition blob : list byte := String.list_byte_of_string "0123456789".

Definition blob_objects (bucket object : string) : option (list byte) :=
  if decide (bucket = "bucket" ∧ object = "blob") then Some blob else None.

(** A far end that never fails and delivers all that fits. *)
Definition steady_api : API :=
  {| objects := blob_objects;
     fetch_script := fun _ => FetchOk [] true ErrBodyClosed;
     head_script := fun _ => None |}.

(** A far end whose first data request fails and whose later ones succeed. *)
Definition flaky_api : API :=
  {| objects := blob_objects;
     fetch_script := fun i => match i with
                               | O => FetchFails 503
                               | S _ => FetchOk [] true ErrBodyClosed
                               end;
     head_script := fun _ => None |}.

(** A far end that hands the bytes out three at a time. *)
Definition slow_api : API :=
  {| objects := blob_objects;
     fetch_script := fun _ => FetchOk (replicate 5 (Chunk 2)) false ErrBodyClosed;
     head_script := fun _ => None |}.

(** A far end whose connection is reset two bytes into every response. *)
Definition reset_api : API :=
  {| objects := blob_objects;
     fetch_script := fun _ => FetchOk [Fail 104 2] true ErrBodyClosed;
     head_script := fun _ => None |}.

(** A far end whose object "empty" has no byte and whose response body is
    [http.NoBody]. *)
Definition empty_objects (bucket object : string) : option (list byte) :=
  if decide (bucket = "bucket" ∧ object = "empty") then Some [] else None.

Definition empty_api : API :=
  {| objects := empty_objects;
     fetch_script := fun _ => FetchOk [] true EOF;
     head_script := fun _ => None |}.

Definition buf (n : nat) : list byte := replicate n x00.

Definition stream_at_7 : objectReadSeeker :=
  snd (Seek (newObjectReadSeeker steady_api "bucket" "blob") 7 0).

(** What the callers of a call sequence see, and the state it ends in:
    [isRead], [reader], which bodies are closed, the number of fetches. *)
Definition obs_of (x : option (list Obs * objectReadSeeker * World)) : option (list Obs) :=
  (fun t => fst (fst t)) <$> x.

Definition state_of (x : option (list Obs * objectReadSeeker * World))
    : option (bool * option nat * list bool * nat) :=
  (fun t => (isRead (snd (fst t)), reader (snd (fst t)),
             b_closed <$> bodies (snd t), fetches (snd t))) <$> x.

(** ** The vocabulary of the statements about the stream *)

(** The fields [Read] and [Seek] work on; [stat] is the cache of [Size]. *)
Definition same_position (r r' : objectReadSeeker) : Prop :=
  offset r = offset r' ∧ isRead r = isRead r' ∧ reader r = reader r'.

(** Two calls of [Read] return the same and leave the same position and
    bodies. *)
Definition same_read (o o' : option ReadResult) : Prop :=
  match o, o' with
  | Some res, Some res' =>
      rr_n res = rr_n res' ∧ rr_err res = rr_err res' ∧ rr_buf res = rr_buf res' ∧
      same_position (rr_stream res) (rr_stream res') ∧
      bodies (rr_world res) = bodies (rr_world res') ∧
      fetches (rr_world res) = fetches (rr_world res')
  | None, None => True
  | _, _ => False
  end.

(** The policy the specification asks for on an unimplemented seek mode:
    the call is rejected with an error, or it leaves the stream alone. *)
Definition rejects_or_noop (r : objectReadSeeker) (off whence : Z) : Prop :=
  snd (fst (Seek r off whence)) ≠ None ∨ snd (Seek r off whence) = r.

(** The handle invariant: a stream with [isRead] set holds a body of the
    world, and a body that is still open is the one the stream holds. *)
Definition held_ok (r : objectReadSeeker) (w : World) : Prop :=
  (isRead r = true → ∃ h, reader r = Some h ∧ (h < length (bodies w))%nat) ∧
  (∀ i b, bodies w !! i = Some b → b_closed b = false →
     isRead r = true ∧ reader r = Some i).

Definition all_closed (w : World) : Prop :=
  Forall (fun b => b_closed b = true) (bodies w).

(** A body is healthy while it is open, has not failed and has no failure
    ahead. *)
Definition is_fail (ev : ReadEvent) : bool :=
  match ev with Chunk _ => false | Fail _ _ => true end.

Definition no_fail (plan : list ReadEvent) : Prop :=
  Forall (fun ev => is_fail ev = false) plan.

Definition healthy (b : Body) : Prop :=
  b_closed b = false ∧ b_err b = None ∧ no_fail (b_plan b).

(** A body is finished when it is closed, failed or empty; each of these
    makes the next read of it report an error. *)
Definition finished (b : Body) : Prop :=
  b_closed b = true ∨ b_err b ≠ None ∨ b_data b = [].

(** The bytes handed to the caller over a sequence of calls, the number of
    calls that reported io.EOF, and the number of [Read]s whose buffer had
    room for at least one byte. *)
Definition received (os : list Obs) : list byte := concat (fst <$> os).

Definition eof_count (os : list Obs) : nat :=
  length (filter (fun o => is_EOF (snd o) = true) os).

(** What the specification says of the calls on a stream that is never
    sought: the bytes returned are the object, and io.EOF is reported
    exactly once. *)
Definition returns_object_once (content : list byte) (os : list Obs) : Prop :=
  received os = content ∧ eof_count os = 1%nat.

Definition has_room (op : Op) : bool :=
  match op with OpRead (_ :: _) => true | _ => false end.

Definition reads_with_room (ops : list Op) : nat :=
  length (filter (fun op => has_room op = true) ops).

Definition is_seek (op : Op) : bool :=
  match op with OpSeek _ _ => true | _ => false end.

Definition no_seek (ops : list Op) : Prop := Forall (fun op => is_seek op = false) ops.

(** The three situations of a stream whose far end delivers: no fetch yet
    and the coming one will succeed; a fetch is active and [rest] is still
    to come from it; the fetch ended and its body is closed.  [ac] is what
    the body of the fetch answers to a read once it is closed. *)
Definition fresh (ac : error) (content : list byte) (r : objectReadSeeker) (w : World)
    : Prop :=
  isRead r = false ∧
  objects (api r) (bucketName r) (objectName r) = Some content ∧
  ∃ plan eager, fetch_script (api r) (fetches w) = FetchOk plan eager ac ∧ no_fail plan.

Definition active (ac : error) (rest : list byte) (r : objectReadSeeker) (w : World)
    : Prop :=
  isRead r = true ∧
  ∃ h b, reader r = Some h ∧ bodies w !! h = Some b ∧ healthy b ∧ b_data b = rest ∧
         b_after_close b = ac.

Definition ended (ac : error) (r : objectReadSeeker) (w : World) : Prop :=
  isRead r = true ∧
  ∃ h b, reader r = Some h ∧ bodies w !! h = Some b ∧ b_closed b = true ∧
         b_after_close b = ac.

(** What a call on a stream whose fetch ended returns: no byte, and for a
    [Read] the answer of the closed body. *)
Definition spent_answer (ac : error) (op : Op) (o : Obs) : Prop :=
  fst o = [] ∧
  match op with
  | OpRead _ => snd o = Some ac
  | OpSeek _ _ => snd o = None
  | OpSize => is_EOF (snd o) = false
  end.

(** * The temporary file

    [tempFile], [newTempFile], [Close] and [cleanupStaleTempfiles] act on
    the file system through Go's [os], [path/filepath] and [io/ioutil].
    What they use of these packages is modelled below after the packages'
    documentation, for a POSIX system and names made of single-byte
    characters.  A path is the list of the components of a cleaned absolute
    path: [["tmp"; "x"]] is "/tmp/x" and [[]] is "/". *)

Module os.

Inductive Kind : Type := RegularFile | Directory.

#[global] Instance Kind_eq_dec : EqDecision Kind.
Proof. solve_decision. Defined.

(** An open file: [*os.File]. *)
Record File : Type := mkFile { Name : list string; fd : nat }.

(** The file system and the part of the process it is seen through. *)
Record FS : Type := mkFS {
  nodes : gmap (list string) Kind;   (* what exists, the root apart *)
  locked : gset (list string);       (* entries the system refuses to change *)
  open_fds : gset nat;               (* descriptors open in the process *)
  next_fd : nat;
  tmpdir : list string;              (* $TMPDIR *)
  rand : nat                         (* the random source of ioutil.TempFile *)
}.

Definition set_nodes (m : gmap (list string) Kind) (fs : FS) : FS :=
  {| nodes := m; locked := locked fs; open_fds := open_fds fs;
     next_fd := next_fd fs; tmpdir := tmpdir fs; rand := rand fs |}.

Definition TempDir (fs : FS) : list string := tmpdir fs.

(** [Lstat(path)] succeeds. *)
Definition Lexists (fs : FS) (path : list string) : bool :=
  match path with
  | [] => true
  | _ :: _ => bool_decide (is_Some (nodes fs !! path))
  end.

(** [Stat(path)] succeeds and reports a directory. *)
Definition IsDir (fs : FS) (path : list string) : bool :=
  match path with
  | [] => true
  | _ :: _ => bool_decide (nodes fs !! path = Some Directory)
  end.

(** [child_of dir path] is [Some n] when [path] is the entry [n] of [dir]. *)
Fixpoint child_of (dir path : list string) : option string :=
  match dir, path with
  | [], [n] => Some n
  | x :: dir', y :: path' => if bool_decide (x = y) then child_of dir' path' else None
  | _, _ => None
  end.

(** [Readdirnames(-1)] of a directory, in no particular order. *)
Definition Readdirnames (fs : FS) (dir : list string) : list string :=
  omap (child_of dir) (map_to_list (nodes fs)).*1.

(** [Remove(path)]: a file or an empty directory. *)
Definition Remove (path : list string) (fs : FS) : option error * FS :=
  match nodes fs !! path with
  | None => (Some ErrNotExist, fs)
  | Some kind =>
      if bool_decide (path ∈ locked fs) then (Some ErrPermission, fs)
      else match kind, Readdirnames fs path with
           | Directory, _ :: _ => (Some ErrNotEmpty, fs)
           | _, _ => (None, set_nodes (delete path (nodes fs)) fs)
           end
  end.

(** [OpenFile(path, O_RDWR|O_CREATE|O_EXCL, 0600)]. *)
Definition OpenFile_excl (path : list string) (fs : FS)
    : (option File * option error) * FS :=
  if Lexists fs path then ((None, Some ErrExist), fs)
  else if negb (IsDir fs (removelast path)) then ((None, Some ErrNotExist), fs)
  else if bool_decide (removelast path ∈ locked fs) then ((None, Some ErrPermission), fs)
  else ((Some {| Name := path; fd := next_fd fs |}, None),
        {| nodes := <[path := RegularFile]> (nodes fs); locked := locked fs;
           open_fds := {[next_fd fs]} ∪ open_fds fs; next_fd := S (next_fd fs);
           tmpdir := tmpdir fs; rand := rand fs |}).

(** [File.Close], the method of an open file. *)
Definition File_Close (f : File) (fs : FS) : option error * FS :=
  if bool_decide (fd f ∈ open_fds fs) then
    (None, {| nodes := nodes fs; locked := locked fs;
              open_fds := open_fds fs ∖ {[fd f]}; next_fd := next_fd fs;
              tmpdir := tmpdir fs; rand := rand fs |})
  else (Some ErrFileClosed, fs).

End os.

Module filepath.

Definition is_sep (c : ascii) : bool := Ascii.eqb c "/".

(** The components of a path string, empty ones included. *)
Fixpoint split (s : string) : list string :=
  match s with
  | EmptyString => [EmptyString]
  | String c s' =>
      if is_sep c then EmptyString :: split s'
      else match split s' with
           | h :: t => String c h :: t
           | [] => [String c EmptyString]
           end
  end.

(** [Clean], one component at a time: empty components and "." vanish,
    ".." drops the component before it (and stays at the root). *)
Definition clean_step (acc : list string) (c : string) : list string :=
  if bool_decide (c = "" ∨ c = ".")%string then acc
  else if bool_decide (c = "..")%string then removelast acc
  else acc ++ [c].

(** [Join(dir, elem)] for a cleaned absolute [dir]. *)
Definition Join (dir : list string) (elem : string) : list string :=
  foldl clean_step dir (split elem).

(** [path + s]: the string is appended to the last component; "/" + s is
    the entry [s] of the root. *)
Definition add_suffix (path : list string) (s : string) : list string :=
  match path with
  | [] => [s]
  | _ :: _ => removelast path ++ [String.append (List.last path EmptyString) s]
  end.

(** The terms of a pattern. *)
Inductive Term : Type :=
| TStar
| TQuestion
| TClass (negated : bool) (ranges : list (ascii * ascii))
| TChar (c : ascii).

(** Where the scan of a pattern is. *)
Inductive Scan : Type :=
| Plain
| Escape
| ClassOpen
| ClassLo (negated : bool) (ranges : list (ascii * ascii))
| ClassLoEsc (negated : bool) (ranges : list (ascii * ascii))
| ClassHaveLo (negated : bool) (ranges : list (ascii * ascii)) (lo : ascii)
| ClassHi (negated : bool) (ranges : list (ascii * ascii)) (lo : ascii)
| ClassHiEsc (negated : bool) (ranges : list (ascii * ascii)) (lo : ascii).

(** A range starts at [c], or the class ends. *)
Definition scan_lo (negated : bool) (ranges : list (ascii * ascii)) (c : ascii)
    : option (Scan * option Term) :=
  if Ascii.eqb c "]" then
    match ranges with
    | [] => None
    | _ :: _ => Some (Plain, Some (TClass negated ranges))
    end
  else if Ascii.eqb c "-" then None
  else if Ascii.eqb c "\" then Some (ClassLoEsc negated ranges, None)
  else Some (ClassHaveLo negated ranges c, None).

Definition scan_step (st : Scan) (c : ascii) : option (Scan * option Term) :=
  match st with
  | Plain =>
      if Ascii.eqb c "*" then Some (Plain, Some TStar)
      else if Ascii.eqb c "?" then Some (Plain, Some TQuestion)
      else if Ascii.eqb c "[" then Some (ClassOpen, None)
      else if Ascii.eqb c "\" then Some (Escape, None)
      else Some (Plain, Some (TChar c))
  | Escape => Some (Plain, Some (TChar c))
  | ClassOpen =>
      if Ascii.eqb c "^" then Some (ClassLo true [], None) else scan_lo false [] c
  | ClassLo negated ranges => scan_lo negated ranges c
  | ClassLoEsc negated ranges => Some (ClassHaveLo negated ranges c, None)
  | ClassHaveLo negated ranges lo =>
      if Ascii.eqb c "-" then Some (ClassHi negated ranges lo, None)
      else scan_lo negated (ranges ++ [(lo, lo)]) c
  | ClassHi negated ranges lo =>
      if Ascii.eqb c "-" || Ascii.eqb c "]" then None
      else if Ascii.eqb c "\" then Some (ClassHiEsc negated ranges lo, None)
      else Some (ClassLo negated (ranges ++ [(lo, c)]), None)
  | ClassHiEsc negated ranges lo => Some (ClassLo negated (ranges ++ [(lo, c)]), None)
  end.

(** The terms of [pattern], or [None] when it is malformed. *)
Fixpoint scan (st : Scan) (pattern : string) : option (list Term) :=
  match pattern with
  | EmptyString => match st with Plain => Some [] | _ => None end
  | String c rest =>
      match scan_step st c with
      | None => None
      | Some (st', None) => scan st' rest
      | Some (st', Some t) => cons t <$> scan st' rest
      end
  end.

Definition in_range (c : ascii) (r : ascii * ascii) : bool :=
  (N_of_ascii (fst r) <=? N_of_ascii c)%N && (N_of_ascii c <=? N_of_ascii (snd r))%N.

(** A term other than [*] against one character. *)
Definition term_matches (t : Term) (c : ascii) : bool :=
  match t with
  | TStar => false
  | TQuestion => negb (is_sep c)
  | TClass negated ranges => negb (Bool.eqb (existsb (in_range c) ranges) negated)
  | TChar x => Ascii.eqb x c
  end.

(** The whole of [name] against the terms; [*] takes any run of
    characters without a separator. *)
Fixpoint match_terms (ts : list Term) (name : string) : bool :=
  match ts with
  | [] => match name with EmptyString => true | String _ _ => false end
  | TStar :: ts' =>
      (fix star (s : string) : bool :=
         match_terms ts' s ||
         match s with
         | EmptyString => false
         | String c s' => negb (is_sep c) && star s'
         end) name
  | t :: ts' =>
      match name with
      | EmptyString => false
      | String c s' => term_matches t c && match_terms ts' s'
      end
  end.

(** [Match(pattern, name)]. *)
Definition Match (pattern name : string) : bool * option error :=
  match scan Plain pattern with
  | None => (false, Some ErrBadPattern)
  | Some ts => (match_terms ts name, None)
  end.

Definition is_meta (c : ascii) : bool :=
  Ascii.eqb c "*" || Ascii.eqb c "?" || Ascii.eqb c "[" || Ascii.eqb c "\".

Fixpoint hasMeta (s : string) : bool :=
  match s with
  | EmptyString => false
  | String c s' => is_meta c || hasMeta s'
  end.

Fixpoint has_sep (s : string) : bool :=
  match s with
  | EmptyString => false
  | String c s' => is_sep c || has_sep s'
  end.

(** A name that [Join] and [Glob] take as it is: no metacharacter, no
    separator, and not one of the names [Clean] rewrites. *)
Definition plain_name (s : string) : bool :=
  negb (hasMeta s) && negb (has_sep s) &&
  negb (bool_decide (s = "" ∨ s = "." ∨ s = "..")%string).

(** The terms of a pattern without metacharacter. *)
Fixpoint literal (s : string) : list Term :=
  match s with
  | EmptyString => []
  | String c s' => TChar c :: literal s'
  end.

(** Byte order on names, the order of [sort.Strings]. *)
Definition name_le (a b : string) : Prop := String.leb a b = true.

#[global] Instance name_le_dec : RelDecision name_le.
Proof. intros a b. unfold name_le. apply _. Defined.

(** The entries of [dir] that one component of a pattern selects: those
    whose name matches, in order of name, when the component has a
    metacharacter; the entry of that name, if there is one, otherwise. *)
Definition glob_component (fs : os.FS) (c : string) (dir : list string)
    : list (list string) :=
  if hasMeta c then
    if os.IsDir fs dir then
      (fun n => dir ++ [n]) <$>
        filter (fun n => fst (Match c n) = true)
               (merge_sort name_le (os.Readdirnames fs dir))
    else []
  else if os.Lexists fs (dir ++ [c]) then [dir ++ [c]] else [].

(** [Glob(pattern)], the pattern given by its components: the paths that
    match, or [ErrBadPattern] when the pattern is malformed. *)
Definition Glob (pattern : list string) (fs : os.FS)
    : list (list string) * option error :=
  if forallb (fun c => bool_decide (is_Some (scan Plain c))) pattern then
    (foldl (fun dirs c => dirs ≫= glob_component fs c) [[]] pattern, None)
  else ([], Some ErrBadPattern).

End filepath.

Module ioutil.

(** [TempFile(dir, prefix)]: the name is [prefix] followed by the decimal
    digits of a random number; a name that exists is tried again with the
    next number, 10000 times at most. *)
Fixpoint TempFile_try (tries : nat) (dir : list string) (prefix : string) (fs : os.FS)
    : (option os.File * option error) * os.FS :=
  match tries with
  | O => ((None, Some ErrExist), fs)
  | S tries' =>
      let name := filepath.Join dir (prefix +:+ pretty (os.rand fs)) in
      let fs1 := {| os.nodes := os.nodes fs; os.locked := os.locked fs;
                    os.open_fds := os.open_fds fs; os.next_fd := os.next_fd fs;
                    os.tmpdir := os.tmpdir fs; os.rand := S (os.rand fs) |} in
      match os.OpenFile_excl name fs1 with
      | ((_, Some ErrExist), fs2) => TempFile_try tries' dir prefix fs2
      | res => res
      end
  end.

Definition TempFile (dir : list string) (prefix : string) (fs : os.FS)
    : (option os.File * option error) * os.FS :=
  TempFile_try (100 * 100) dir prefix fs.

End ioutil.

(** ** [tempFile] *)
Record tempFile : Type := mkTempFile {
  File : option os.File    (* the embedded *os.File; nil once released *)
}.

Definition newTempFile (prefix : string) (fs : os.FS)
    : (option tempFile * option error) * os.FS :=
  match ioutil.TempFile (os.TempDir fs) prefix fs with
  | ((_, Some err), fs1) => ((None, Some err), fs1)
  | ((file, None), fs1) => ((Some {| File := file |}, None), fs1)
  end.

(** The loop of [cleanupStaleTempfiles]. *)
Fixpoint remove_each (staleFiles : list (list string)) (fs : os.FS)
    : option error * os.FS :=
  match staleFiles with
  | [] => (None, fs)
  | staleFile :: rest =>
      match os.Remove staleFile fs with
      | (Some err, fs1) => (Some err, fs1)
      | (None, fs1) => remove_each rest fs1
      end
  end.

Definition cleanupStaleTempfiles (prefix : string) (fs : os.FS)
    : option error * os.FS :=
  let globPath :=
    filepath.add_suffix (filepath.Join (os.TempDir fs) prefix) "*" in
  match filepath.Glob globPath fs with
  | (_, Some err) => (Some err, fs)
  | (staleFiles, None) => remove_each staleFiles fs
  end.

(** [Close]. *)
Definition Close (t : tempFile) (fs : os.FS) : option error * tempFile * os.FS :=
  match File t with
  | Some f =>
      match os.File_Close f fs with
      | (Some err, fs1) => (Some err, t, fs1)
      | (None, fs1) =>
          match os.Remove (os.Name f) fs1 with
          | (Some err, fs2) => (Some err, t, fs2)
          | (None, fs2) => (None, {| File := None |}, fs2)
          end
      end
  | None => (None, t, fs)
  end.

(** A file system for the examples: /tmp holds the directory "cache" with
    one file in it and the files "ab1", "a?1", "abc", "decoy"; "abc" cannot
    be removed. *)
Definition fs0 : os.FS :=
  {| os.nodes := list_to_map
       [ (["tmp"], os.Directory);
         (["tmp"; "cache"], os.Directory);
         (["tmp"; "cache"; "x"], os.RegularFile);
         (["tmp"; "ab1"], os.RegularFile);
         (["tmp"; "a?1"], os.RegularFile);
         (["tmp"; "abc"], os.RegularFile);
         (["tmp"; "decoy"], os.RegularFile) ]%string;
     os.locked := {[ ["tmp"; "abc"]%string ]};
     os.open_fds := ∅; os.next_fd := 3;
     os.tmpdir := ["tmp"]%string; os.rand := 41 |}.

(** A file system whose temporary directory is "/t[m]p", next to "/tmp". *)
Definition fs_bracket : os.FS :=
  {| os.nodes := list_to_map
       [ (["t[m]p"], os.Directory);
         (["t[m]p"; "pa"], os.RegularFile);
         (["tmp"], os.Directory);
         (["tmp"; "pb"], os.RegularFile) ]%string;
     os.locked := ∅; os.open_fds := ∅; os.next_fd := 3;
     os.tmpdir := ["t[m]p"]%string; os.rand := 41 |}.

(** ** The vocabulary of the statements about the sweep *)

(** The temporary directory is there, its path has no metacharacter, and
    the names of its entries have no separator. *)
Definition tempdir_ok (fs : os.FS) : bool :=
  forallb (fun c => negb (filepath.hasMeta c)) (os.TempDir fs) &&
  forallb (fun k => os.Lexists fs (take k (os.TempDir fs)))
          (seq 1 (length (os.TempDir fs))) &&
  os.IsDir fs (os.TempDir fs) &&
  forallb (fun n => negb (filepath.has_sep n)) (os.Readdirnames fs (os.TempDir fs)).

(** The entries of the temporary directory whose name starts with [prefix],
    in order of name. *)
Definition stale (prefix : string) (fs : os.FS) : list (list string) :=
  (fun n => os.TempDir fs ++ [n]) <$>
    filter (fun n => String.prefix prefix n = true)
           (merge_sort filepath.name_le (os.Readdirnames fs (os.TempDir fs))).

(** The file system with the paths [removed] gone and nothing else changed. *)
Definition removed_from (removed : list (list string)) (fs : os.FS) : os.FS :=
  os.set_nodes (foldl (fun m q => delete q m) (os.nodes fs) removed) fs.

(** What the specification says of a sweep: an entry of the temporary
    directory is gone afterwards exactly when its name starts with the
    prefix. *)
Definition sweeps_exactly_prefix (prefix : string) (fs : os.FS) : Prop :=
  ∀ n, is_Some (os.nodes fs !! (os.TempDir fs ++ [n])) →
    (os.nodes (snd (cleanupStaleTempfiles prefix fs)) !! (os.TempDir fs ++ [n]) = None
     ↔ String.prefix prefix n = true).

(** ** The vocabulary of the further statements *)

(** What a stream made in the world [w0] has done to the bodies of the
    world: nothing before its fetch, and after it one body more, the one it
    holds, with the bodies of [w0] as they were. *)
Definition own_body (w0 : World) (r : objectReadSeeker) (w : World) : Prop :=
  if isRead r then
    reader r = Some (length (bodies w0)) ∧
    length (bodies w) = S (length (bodies w0)) ∧
    take (length (bodies w0)) (bodies w) = bodies w0
  else bodies w = bodies w0.

(** The first [j] data requests from the world [w] on fail, the next one
    delivers a body that answers [ac] once it is closed. *)
Definition fails_then_delivers (a : API) (w : World) (j : nat) (ac : error) : Prop :=
  (∀ i, (i < j)%nat → ∃ code, fetch_script a (fetches w + i) = FetchFails code) ∧
  ∃ plan eager, fetch_script a (fetches w + j) = FetchOk plan eager ac ∧ no_fail plan.

(** Decimal digits, the characters of the suffix of a temporary name. *)
Definition is_digit (c : ascii) : bool :=
  (48 <=? N_of_ascii c)%N && (N_of_ascii c <=? 57)%N.

Fixpoint all_digits (s : string) : bool :=
  match s with
  | EmptyString => true
  | String c s' => is_digit c && all_digits s'
  end.

(** File systems for the further examples: one whose temporary directory is
    missing, and one where the file "abc", which cannot be removed, is open
    on descriptor 7. *)
Definition fs_without_tmp : os.FS :=
  {| os.nodes := os.nodes fs0; os.locked := os.locked fs0;
     os.open_fds := os.open_fds fs0; os.next_fd := os.next_fd fs0;
     os.tmpdir := ["gone"]%string; os.rand := os.rand fs0 |}.

Definition fs_abc_open : os.FS :=
  {| os.nodes := os.nodes fs0; os.locked := os.locked fs0;
     os.open_fds := {[7%nat]}; os.next_fd := 8;
     os.tmpdir := os.tmpdir fs0; os.rand := os.rand fs0 |}.

Definition t_abc : tempFile :=
  {| File := Some {| os.Name := ["tmp"; "abc"]%string; os.fd := 7 |} |}.

(** * Properties of [Seek] *)

(** C10: for every offset (negative ones too) and every [whence], [Seek]
    returns exactly [(offset, nil)], records the offset, and changes nothing
    else of the stream; neither argument is validated. *)
Theorem Seek_stores_offset_unconditionally (r : objectReadSeeker) (off whence : Z) :
  fst (Seek r off whence) = (off, None) ∧
  offset (snd (Seek r off whence)) = off ∧
  reader (snd (Seek r off whence)) = reader r ∧
  isRead (snd (Seek r off whence)) = isRead r ∧
  stat (snd (Seek r off whence)) = stat r ∧
  api (snd (Seek r off whence)) = api r ∧
  bucketName (snd (Seek r off whence)) = bucketName r ∧
  objectName (snd (Seek r off whence)) = objectName r.
Proof. repeat split. Qed.

(** C3, the code at [Seek(3, 1)] on a stream at offset 7: the call is
    neither rejected nor a no-op.  It reports no error and moves the stream
    to offset 3, as [Seek(3, 0)] does, where the doc comment of [Seek] has
    [whence] 1 mean "relative to the current offset", which is 10. *)
Lemma Seek_whence_1_repositions :
  ¬ rejects_or_noop stream_at_7 3 1 ∧
  fst (Seek stream_at_7 3 1) = (3, None) ∧
  offset (snd (Seek stream_at_7 3 1)) = 3 ∧
  offset stream_at_7 = 7.
Proof.
  split; [|done].
  intros [Hrej | Hnoop]; [by apply Hrej|].
  apply (f_equal offset) in Hnoop. discriminate Hnoop.
Qed.

(** * Properties of [Size] *)

Lemma Size_frame (r : objectReadSeeker) (w : World) :
  same_position (snd (fst (Size r w))) r ∧
  api (snd (fst (Size r w))) = api r ∧
  bucketName (snd (fst (Size r w))) = bucketName r ∧
  objectName (snd (fst (Size r w))) = objectName r ∧
  bodies (snd (Size r w)) = bodies w ∧
  fetches (snd (Size r w)) = fetches w.
Proof.
  unfold Size, headObject, same_position.
  destruct (head_script _ _); [done|]. by destruct (objects _ _ _).
Qed.

(** [Read] looks at nothing that [Size] writes. *)
Lemma Read_body_same_position (r r' : objectReadSeeker) (w w' : World) (p : list byte) :
  same_position r r' → bodies w = bodies w' → fetches w = fetches w' →
  same_read (Read_body r p w) (Read_body r' p w').
Proof.
  intros Hpos Hbodies Hfetches. pose proof Hpos as (Hoff & HisRead & Hrd).
  unfold Read_body. rewrite <- Hrd, <- Hbodies.
  destruct (reader r) as [h|]; simpl; [|done].
  destruct (bodies w !! h) as [b|]; simpl; [|done].
  destruct (body_Read b (length p)) as [[data err] b1].
  destruct (is_EOF err); [|destruct (bool_decide (err ≠ None))];
    simpl; rewrite <- ?Hbodies; done.
Qed.

Lemma Read_same_position (r r' : objectReadSeeker) (w w' : World) (p : list byte) :
  same_position r r' → api r = api r' →
  bucketName r = bucketName r' → objectName r = objectName r' →
  bodies w = bodies w' → fetches w = fetches w' →
  same_read (Read r p w) (Read r' p w').
Proof.
  intros Hpos Hapi Hb Ho Hbodies Hfetches.
  pose proof Hpos as (Hoff & HisRead & Hrd).
  unfold Read, getObject.
  rewrite <- HisRead, <- Hapi, <- Hb, <- Ho, <- Hoff, <- Hbodies, <- Hfetches.
  destruct (isRead r) eqn:E; simpl.
  - by apply Read_body_same_position.
  - destruct (fetch_script (api r) (fetches w)); simpl; [done|].
    destruct (objects (api r) (bucketName r) (objectName r)); simpl; [|done].
    by apply Read_body_same_position.
Qed.

(** C7: [Size] leaves the offset, the active-fetch flag and the held handle
    as they are, and touches no response body; a second call leaves them as
    the first did; and a [Read] after [Size] returns the same count, error
    and buffer, and leaves the same position and bodies, as that [Read]
    without the [Size] before it. *)
Theorem Size_does_not_disturb_reads (r : objectReadSeeker) (w : World) :
  let r1 := snd (fst (Size r w)) in
  let w1 := snd (Size r w) in
  same_position r1 r ∧ bodies w1 = bodies w ∧
  same_position (snd (fst (Size r1 w1))) r1 ∧
  bodies (snd (Size r1 w1)) = bodies w1 ∧
  ∀ p : list byte, same_read (Read r1 p w1) (Read r p w).
Proof.
  intros r1 w1.
  destruct (Size_frame r w) as (Hpos & Hapi & Hb & Ho & Hbodies & Hfetches).
  destruct (Size_frame r1 w1) as (Hpos' & _ & _ & _ & Hbodies' & _).
  repeat split; try done; try apply Hpos; try apply Hpos'.
  intros p. by apply Read_same_position.
Qed.

(** * Properties of [Read] *)

(** C6: with no active fetch, when the fetch cannot be started [Read]
    returns 0 and the error of [getObject], does not touch the buffer, and
    leaves the stream as it was: offset, flag, handle and every other field. *)
Theorem Read_fetch_failure_leaves_stream
    (r : objectReadSeeker) (p : list byte) (w : World) (e : error) :
  isRead r = false →
  snd (fst (getObject (api r) (bucketName r) (objectName r) (offset r) 0 w)) = Some e →
  ∃ res, Read r p w = Some res ∧
    rr_n res = 0 ∧ rr_err res = Some e ∧ rr_bytes res = [] ∧ rr_buf res = p ∧
    rr_stream res = r ∧ bodies (rr_world res) = bodies w.
Proof.
  intros HisRead Hfail. unfold Read. rewrite HisRead. simpl.
  destruct (getObject _ _ _ _ _ _) as [[[rd st] err] w1] eqn:Hget.
  simpl in Hfail. subst err.
  eexists. split; [done|]. simpl. repeat split; try done.
  unfold getObject in Hget.
  destruct (fetch_script _ _); [by inversion Hget|].
  destruct (objects _ _ _); by inversion Hget.
Qed.

Lemma Read_fetch_failure_leaves_stream_witness :
  let r := newObjectReadSeeker flaky_api "bucket" "blob" in
  ∃ res, Read r (buf 5) World0 = Some res ∧
    rr_n res = 0 ∧ rr_err res = Some (ErrTransport 503) ∧ rr_bytes res = [] ∧
    rr_buf res = buf 5 ∧ rr_stream res = r ∧ bodies (rr_world res) = bodies World0.
Proof.
  intros r.
  exact (Read_fetch_failure_leaves_stream r (buf 5) World0 (ErrTransport 503)
           eq_refl eq_refl).
Defined.

(** ** The handle invariant *)

Lemma opens_closes_all_closed (w : World) : opens w = closes w ↔ all_closed w.
Proof.
  unfold opens, closes, all_closed. induction (bodies w) as [|b bs IH]; simpl.
  - split; [constructor|done].
  - rewrite filter_cons. destruct (decide (b_closed b = true)) as [Hc|Hc]; simpl.
    + rewrite Forall_cons. split.
      * intros H. split; [done|]. apply IH. lia.
      * intros [_ H]. f_equal. by apply IH.
    + split.
      * intros H. pose proof (length_filter (fun b => b_closed b = true) bs). lia.
      * intros H. by apply Forall_cons in H as [? _].
Qed.

Lemma new_stream_held_ok (a : API) (bucket object : string) (w : World) :
  all_closed w → held_ok (newObjectReadSeeker a bucket object) w.
Proof.
  intros Hw. split; [done|]. intros i b Hi Hopen.
  unfold all_closed in Hw. rewrite Forall_lookup in Hw.
  specialize (Hw i b Hi). congruence.
Qed.

Lemma Read_body_held_ok (r : objectReadSeeker) (p : list byte) (w : World) :
  held_ok r w → isRead r = true →
  ∃ res, Read_body r p w = Some res ∧ rr_stream res = r ∧
    held_ok r (rr_world res) ∧
    fetches (rr_world res) = fetches w ∧
    length (bodies (rr_world res)) = length (bodies w) ∧
    (rr_err res ≠ None → all_closed (rr_world res)).
Proof.
  intros [Hheld Hopen] HisRead.
  destruct (Hheld HisRead) as (h & Hrd & Hlt).
  destruct (lookup_lt_is_Some_2 _ _ Hlt) as [b Hb].
  unfold Read_body. rewrite Hrd. simpl. rewrite Hb. simpl.
  destruct (body_Read b (length p)) as [[data err] b1].
  assert (Hinv : ∀ b', held_ok r (set_body h b' w)).
  { intros b'. split.
    - intros _. exists h. split; [done|]. simpl. by rewrite length_insert.
    - intros i bi. simpl. intros Hi Hbi.
      destruct (decide (i = h)) as [->|Hne]; [done|].
      rewrite list_lookup_insert_ne in Hi by done. eauto. }
  assert (Hclosed : ∀ b', b_closed b' = true → all_closed (set_body h b' w)).
  { intros b' Hb'. unfold all_closed. rewrite Forall_lookup. simpl.
    intros i bi Hi. destruct (decide (i = h)) as [->|Hne].
    - rewrite list_lookup_insert_eq in Hi by done. congruence.
    - rewrite list_lookup_insert_ne in Hi by done.
      destruct (b_closed bi) eqn:Hbi; [done|].
      destruct (Hopen i bi Hi Hbi) as [_ Hrd']. congruence. }
  destruct (is_EOF err) eqn:Heof; [|destruct (bool_decide (err ≠ None)) eqn:Hnil].
  - eexists. split; [done|]. simpl. rewrite length_insert.
    split_and!; try done. intros _. by apply Hclosed.
  - eexists. split; [done|]. simpl. rewrite length_insert.
    split_and!; try done. intros _. by apply Hclosed.
  - eexists. split; [done|]. simpl. rewrite length_insert.
    split_and!; done.
Qed.

Lemma Read_held_ok (r : objectReadSeeker) (p : list byte) (w : World) :
  held_ok r w →
  ∃ res, Read r p w = Some res ∧ held_ok (rr_stream res) (rr_world res) ∧
    (rr_err res ≠ None → all_closed (rr_world res)).
Proof.
  intros Hok. unfold Read. destruct (isRead r) eqn:HisRead; simpl.
  - destruct (Read_body_held_ok r p w Hok HisRead) as (res & -> & Hr & Hok' & _ & _ & Hc).
    exists res. rewrite Hr. done.
  - assert (Hw : all_closed w).
    { unfold all_closed. rewrite Forall_lookup. intros i b Hi.
      destruct (b_closed b) eqn:Hb; [done|].
      destruct Hok as [_ Hopen]. destruct (Hopen i b Hi Hb). congruence. }
    unfold getObject.
    destruct (fetch_script _ _) as [code|plan eager]; simpl.
    { eexists. split; [done|]. simpl. split; [|done].
      destruct Hok as [H1 H2]. split; simpl; [congruence|done]. }
    destruct (objects _ _ _) as [content|]; simpl.
    2:{ eexists. split; [done|]. simpl. split; [|done].
        destruct Hok as [H1 H2]. split; simpl; [congruence|done]. }
    match goal with |- context [Read_body ?r1 p ?w1] =>
      destruct (Read_body_held_ok r1 p w1) as (res & -> & Hr & Hok' & _ & _ & Hc) end.
    + split; simpl.
      * intros _. eexists. split; [done|]. rewrite length_app. simpl. lia.
      * intros i b Hi Hb. split; [done|]. f_equal.
        destruct (decide (i < length (bodies w))%nat) as [Hlt|Hge].
        -- rewrite lookup_app_l in Hi by done.
           unfold all_closed in Hw. rewrite Forall_lookup in Hw.
           specialize (Hw i b Hi). congruence.
        -- apply lookup_lt_Some in Hi. rewrite length_app in Hi. simpl in Hi. lia.
    + done.
    + exists res. rewrite Hr. done.
Qed.

Lemma Size_held_ok (r : objectReadSeeker) (w : World) :
  held_ok r w → held_ok (snd (fst (Size r w))) (snd (Size r w)).
Proof.
  intros [H1 H2].
  destruct (Size_frame r w) as ((_ & HisRead & Hrd) & _ & _ & _ & Hbodies & _).
  split.
  - rewrite HisRead, Hrd, Hbodies. done.
  - rewrite HisRead, Hrd, Hbodies. done.
Qed.

Lemma step_held_ok (op : Op) (r : objectReadSeeker) (w : World) :
  held_ok r w → ∃ o r1 w1, step op r w = Some (o, r1, w1) ∧ held_ok r1 w1.
Proof.
  intros Hok. destruct op as [p|off whence|]; simpl.
  - destruct (Read_held_ok r p w Hok) as (res & -> & Hok' & _). simpl. eauto.
  - eauto.
  - pose proof (Size_held_ok r w Hok) as Hok'.
    destruct (Size r w) as [[[n err] r1] w1]. eauto.
Qed.

(** No call sequence on a new stream reaches the nil dereference. *)
Lemma run_total (ops : list Op) (r : objectReadSeeker) (w : World) :
  held_ok r w → ∃ os r1 w1, run ops r w = Some (os, r1, w1) ∧ held_ok r1 w1.
Proof.
  revert r w. induction ops as [|op ops IH]; intros r w Hok; simpl.
  - eauto.
  - destruct (step_held_ok op r w Hok) as (o & r1 & w1 & -> & Hok1). simpl.
    destruct (IH r1 w1 Hok1) as (os & r2 & w2 & -> & Hok2). simpl. eauto.
Qed.

Lemma Read_fetched (r r1 : objectReadSeeker) (p : list byte) (w w1 : World) :
  fetched r w = Some (r1, w1) → Read r p w = Read_body r1 p w1.
Proof.
  unfold fetched, Read. destruct (negb (isRead r)); [|by intros [= <- <-]].
  destruct (getObject _ _ _ _ _ _) as [[[rd st] [err|]] w2]; [done|].
  by intros [= <- <-].
Qed.

(** C5: on every stream, after any sequence of calls, [Read] returns, and
    when the read of the body it holds or has just fetched reports io.EOF
    or any other error, [Read] returns that error with the body closed and
    no handle left open: the number of handles opened equals the number
    closed.  So after every [Read] that returns an error, that of a fetch
    that could not be started included, the count holds and the body the
    stream holds, if any, is closed. *)
Theorem terminal_Read_leaves_no_open_handle
    (a : API) (bucket object : string) (w0 : World) (ops : list Op) (p : list byte) :
  opens w0 = closes w0 →
  ∃ os r w res,
    run ops (newObjectReadSeeker a bucket object) w0 = Some (os, r, w) ∧
    Read r p w = Some res ∧
    (∀ r1 w1 h b e,
       fetched r w = Some (r1, w1) → reader r1 = Some h → bodies w1 !! h = Some b →
       snd (fst (body_Read b (length p))) = Some e →
       rr_err res = Some e ∧ reader (rr_stream res) = Some h ∧
       opens (rr_world res) = closes (rr_world res) ∧
       ∃ b', bodies (rr_world res) !! h = Some b' ∧ b_closed b' = true) ∧
    (rr_err res ≠ None → opens (rr_world res) = closes (rr_world res)) ∧
    (rr_err res ≠ None → isRead (rr_stream res) = true →
       ∃ h b, reader (rr_stream res) = Some h ∧
              bodies (rr_world res) !! h = Some b ∧ b_closed b = true).
Proof.
  intros Hw0. apply opens_closes_all_closed in Hw0.
  destruct (run_total ops _ w0 (new_stream_held_ok a bucket object w0 Hw0))
    as (os & r & w & Hrun & Hok).
  destruct (Read_held_ok r p w Hok) as (res & HRead & Hok' & Hclosed).
  exists os, r, w, res. split; [done|]. split; [done|].
  split; [|split].
  3:{ intros Herr HisRead. destruct Hok' as [Hheld _].
      destruct (Hheld HisRead) as (h & Hrd & Hlt).
      destruct (lookup_lt_is_Some_2 _ _ Hlt) as [b Hb].
      exists h, b. split_and!; try done.
      specialize (Hclosed Herr). unfold all_closed in Hclosed.
      rewrite Forall_lookup in Hclosed. eauto. }
  2:{ intros Herr. apply opens_closes_all_closed. auto. }
  - intros r1 w1 h b e Hf Hrd Hb He.
    rewrite (Read_fetched r r1 p w w1 Hf) in HRead.
    unfold Read_body in HRead. rewrite Hrd in HRead. simpl in HRead.
    rewrite Hb in HRead. simpl in HRead.
    pose proof (lookup_lt_Some _ _ _ Hb) as Hlt.
    destruct (body_Read b (length p)) as [[data err] b1]. simpl in He. subst err.
    assert (Hres : rr_err res = Some e ∧ rr_stream res = r1 ∧
              rr_world res = set_body h (body_Close (io_Copy_Discard b1)) w1).
    { destruct (is_EOF (Some e)).
      - by injection HRead as <-.
      - rewrite bool_decide_eq_true_2 in HRead by done. by injection HRead as <-. }
    destruct Hres as (Herr & Hr & Hw).
    split; [done|]. split; [by rewrite Hr|]. split.
    + apply opens_closes_all_closed, Hclosed. by rewrite Herr.
    + eexists. rewrite Hw. simpl. rewrite list_lookup_insert_eq by done. done.
Qed.

Lemma terminal_Read_leaves_no_open_handle_witness :
  opens World0 = closes World0 ∧
  ∃ os r w res b b',
    run [OpRead (buf 5); OpSeek 2 0; OpSize]
        (newObjectReadSeeker steady_api "bucket" "blob") World0 = Some (os, r, w) ∧
    fetched r w = Some (r, w) ∧ reader r = Some 0%nat ∧
    bodies w !! 0%nat = Some b ∧ b_closed b = false ∧
    snd (fst (body_Read b (length (buf 10)))) = Some EOF ∧
    Read r (buf 10) w = Some res ∧ rr_err res = Some EOF ∧
    bodies (rr_world res) !! 0%nat = Some b' ∧ b_closed b' = true ∧
    opens (rr_world res) = 1%nat ∧ closes (rr_world res) = 1%nat.
Proof.
  split; [reflexivity|].
  destruct (terminal_Read_leaves_no_open_handle steady_api "bucket" "blob" World0
              [OpRead (buf 5); OpSeek 2 0; OpSize] (buf 10) eq_refl)
    as (os & r & w & res & Hrun & HRead & Hbody & _).
  injection Hrun as <- <- <-.
  edestruct Hbody as (Herr & _ & Hcount & b' & Hb' & Hclosed);
    [reflexivity | reflexivity | reflexivity | reflexivity |].
  eexists _, _, _, res, _, b'.
  split; [reflexivity|]. split; [reflexivity|]. split; [reflexivity|].
  split; [reflexivity|]. split; [reflexivity|]. split; [reflexivity|].
  split; [exact HRead|]. split; [exact Herr|]. split; [exact Hb'|].
  split; [exact Hclosed|].
  injection HRead as <-. split; reflexivity.
Defined.

(** ** The response body, read while it is healthy *)

Lemma deliver_healthy (n : nat) (b : Body) (plan : list ReadEvent) :
  no_fail plan → (0 < n)%nat → b_data b ≠ [] →
  ∃ x err b', deliver n b plan = (x, err, b') ∧
    b_data b = x ++ b_data b' ∧ healthy b' ∧ b_after_close b' = b_after_close b ∧
    ((err = None ∧ (length (b_data b') < length (b_data b))%nat) ∨
     (err = Some EOF ∧ b_data b' = [])).
Proof.
  intros Hplan Hn Hdata. unfold deliver.
  pose proof (take_drop n (b_data b)) as Htd.
  pose proof (length_drop (b_data b) n) as Hlen.
  assert (0 < length (b_data b))%nat by (destruct (b_data b); [done|simpl; lia]).
  destruct (drop n (b_data b)) as [|c rest].
  - destruct (b_eof_with_data b); eexists _, _, _; (split; [done|]); simpl;
      (split; [done|]); (split; [done|]); (split; [done|]).
    + by right.
    + left. split; [done|]. simpl. lia.
  - eexists _, _, _. split; [done|]. simpl. split; [done|]. split; [done|].
    split; [done|]. left. split; [done|]. simpl in Hlen. lia.
Qed.

Lemma body_Read_healthy (b : Body) (cap : nat) :
  healthy b →
  ∃ x err b', body_Read b cap = (x, err, b') ∧
    b_data b = x ++ b_data b' ∧ healthy b' ∧ b_after_close b' = b_after_close b ∧
    ((err = None ∧ (cap ≠ 0%nat → (length (b_data b') < length (b_data b))%nat)) ∨
     (err = Some EOF ∧ b_data b' = [])).
Proof.
  intros (Hclosed & Herr & Hplan). unfold body_Read. rewrite Hclosed, Herr.
  destruct (b_data b) as [|c d] eqn:Hdata.
  { eexists _, _, _. split; [done|]. rewrite Hdata. split; [done|]. split; [done|].
    split; [done|]. by right. }
  destruct cap as [|cap].
  { eexists _, _, _. split; [done|]. rewrite Hdata. split; [done|]. split; [done|].
    split; [done|]. by left. }
  assert (Hne : b_data b ≠ []) by (by rewrite Hdata).
  destruct (b_plan b) as [|[k|code k] plan] eqn:Hp.
  - destruct (deliver_healthy (S cap) b [] ltac:(constructor) ltac:(lia) Hne)
      as (x & err & b' & -> & Hsplit & Hh & Hac & Hres).
    exists x, err, b'. rewrite <- Hdata. split_and!; try done.
    destruct Hres as [[-> Hlt]|[-> Hnil]]; [left|right]; done.
  - apply Forall_cons in Hplan as [_ Hplan].
    destruct (deliver_healthy (Nat.min (S k) (S cap)) b plan Hplan ltac:(lia) Hne)
      as (x & err & b' & -> & Hsplit & Hh & Hac & Hres).
    exists x, err, b'. rewrite <- Hdata. split_and!; try done.
    destruct Hres as [[-> Hlt]|[-> Hnil]]; [left|right]; done.
  - apply Forall_cons in Hplan as [Hf _]. done.
Qed.

(** Reading a body, draining it and closing it leave its answer after
    [Close] as it is. *)
Lemma body_Read_after_close (b : Body) (cap : nat) :
  b_after_close (snd (body_Read b cap)) = b_after_close b.
Proof.
  unfold body_Read, deliver.
  destruct (b_closed b); [done|]. destruct (b_err b); [done|].
  destruct (b_data b) as [|c d]; [done|]. destruct cap as [|cap]; [done|].
  by destruct (b_plan b) as [|[k|code k] plan].
Qed.

Lemma drain_after_close (fuel : nat) (b : Body) :
  b_after_close (drain fuel b) = b_after_close b.
Proof.
  revert b. induction fuel as [|fuel IH]; intros b; simpl; [done|].
  pose proof (body_Read_after_close b discard_buffer_size) as Hac.
  destruct (body_Read b discard_buffer_size) as [[x [e|]] b']; simpl in Hac; [done|].
  by rewrite IH.
Qed.

Lemma io_Copy_Discard_after_close (b : Body) :
  b_after_close (body_Close (io_Copy_Discard b)) = b_after_close b.
Proof. unfold body_Close, io_Copy_Discard. cbn [b_after_close]. apply drain_after_close. Qed.

(** A read with room either reports an error, and the body is finished, or
    takes at least one byte. *)
Lemma body_Read_progress (b : Body) (cap : nat) :
  let '(_, err, b') := body_Read b (S cap) in
  match err with
  | Some _ => finished b'
  | None => (length (b_data b') < length (b_data b))%nat
  end.
Proof.
  unfold body_Read, finished.
  destruct (b_closed b) eqn:Hc; [by left|].
  destruct (b_err b) eqn:He; [right; left; congruence|].
  destruct (b_data b) as [|c d] eqn:Hd; [by do 2 right|].
  assert (Hdel : ∀ n plan, (0 < n)%nat →
    let '(_, err, b') := deliver n b plan in
    match err with
    | Some _ => b_closed b' = true ∨ b_err b' ≠ None ∨ b_data b' = []
    | None => (length (b_data b') < length (c :: d))%nat
    end).
  { intros n plan Hn. unfold deliver. rewrite Hd.
    pose proof (length_drop (c :: d) n) as Hlen.
    destruct (drop n (c :: d)) as [|c' rest].
    - destruct (b_eof_with_data b); simpl; [by do 2 right|lia].
    - simpl in *. lia. }
  destruct (b_plan b) as [|[k|code k] plan].
  - apply Hdel. lia.
  - apply Hdel. lia.
  - simpl. right. left. done.
Qed.

Lemma drain_finished (fuel : nat) (b : Body) :
  (length (b_data b) < fuel)%nat → finished (drain fuel b).
Proof.
  revert b. induction fuel as [|fuel IH]; intros b Hlt; [lia|]. simpl.
  assert (Hpos : ∃ cap, discard_buffer_size = S cap) by (eexists; reflexivity).
  destruct Hpos as [cap ->].
  pose proof (body_Read_progress b cap) as Hp.
  destruct (body_Read b (S cap)) as [[x err] b'].
  destruct err as [e|]; [done|]. apply IH. lia.
Qed.

(** [io.Copy] stops because a read reported an error, not because the
    bound on its reads was reached. *)
Lemma io_Copy_Discard_finished (b : Body) : finished (io_Copy_Discard b).
Proof. apply drain_finished. lia. Qed.

(** ** What a sequence of calls returns *)

Lemma eof_count_cons (o : Obs) (os : list Obs) :
  eof_count (o :: os) = ((if is_EOF (snd o) then 1 else 0) + eof_count os)%nat.
Proof.
  unfold eof_count. rewrite filter_cons.
  destruct (is_EOF (snd o)); by destruct (decide _).
Qed.

Lemma received_cons (o : Obs) (os : list Obs) :
  received (o :: os) = fst o ++ received os.
Proof. done. Qed.

Lemma reads_with_room_cons (op : Op) (ops : list Op) :
  reads_with_room (op :: ops) =
    ((if has_room op then 1 else 0) + reads_with_room ops)%nat.
Proof.
  unfold reads_with_room. rewrite filter_cons.
  destruct (has_room op); by destruct (decide _).
Qed.

Lemma take_fill (p x : list byte) : take (Z.to_nat (Z.of_nat (length x))) (fill p x) = x.
Proof. unfold fill. rewrite Nat2Z.id. by rewrite take_app_length. Qed.

(** One [Read] of an active fetch: a piece of [rest], or the last piece
    with io.EOF. *)
Lemma Read_body_active (ac : error) (rest : list byte) (r : objectReadSeeker)
    (p : list byte) (w : World) :
  active ac rest r w →
  ∃ res, Read_body r p w = Some res ∧ rr_stream res = r ∧
    ((rr_err res = None ∧
      ∃ rest', rest = rr_bytes res ++ rest' ∧ active ac rest' r (rr_world res) ∧
               (p ≠ [] → (length rest' < length rest)%nat)) ∨
     (rr_err res = Some EOF ∧ rr_bytes res = rest ∧ ended ac r (rr_world res))).
Proof.
  intros (HisRead & h & b & Hrd & Hb & Hh & Hdata & Hac).
  unfold Read_body. rewrite Hrd. simpl. rewrite Hb. simpl.
  destruct (body_Read_healthy b (length p) Hh)
    as (x & err & b' & -> & Hsplit & Hh' & Hac' & Hres).
  pose proof (lookup_lt_Some _ _ _ Hb) as Hlt.
  destruct Hres as [[-> Hprog]|[-> Hnil]]; simpl.
  - eexists. split; [done|]. split; [done|]. left. split; [done|].
    exists (b_data b'). unfold rr_bytes. simpl. rewrite take_fill.
    split; [congruence|]. split.
    + split; [done|]. exists h, b'. simpl. rewrite list_lookup_insert_eq by done.
      split_and!; try done. congruence.
    + intros Hp. rewrite <- Hdata. apply Hprog. by destruct p.
  - eexists. split; [done|]. split; [done|]. right. split; [done|].
    unfold rr_bytes. simpl. rewrite take_fill. split.
    + rewrite <- Hdata, Hsplit, Hnil. by rewrite app_nil_r.
    + split; [done|]. eexists h, _. simpl. rewrite list_lookup_insert_eq by done.
      split_and!; try done. rewrite io_Copy_Discard_after_close. congruence.
Qed.

(** One [Read] after the fetch ended: no byte and the answer of the closed
    body, which stays closed. *)
Lemma Read_body_ended (ac : error) (r : objectReadSeeker) (p : list byte) (w : World) :
  ended ac r w →
  ∃ res, Read_body r p w = Some res ∧ rr_stream res = r ∧
    rr_bytes res = [] ∧ rr_err res = Some ac ∧
    fetches (rr_world res) = fetches w ∧ ended ac r (rr_world res).
Proof.
  intros (HisRead & h & b & Hrd & Hb & Hclosed & Hac).
  unfold Read_body, body_Read. rewrite Hrd. simpl. rewrite Hb. simpl.
  rewrite Hclosed, Hac.
  pose proof (lookup_lt_Some _ _ _ Hb) as Hlt.
  assert (Hend : ended ac r (set_body h (body_Close (io_Copy_Discard b)) w)).
  { split; [done|]. eexists h, _. simpl. rewrite list_lookup_insert_eq by done.
    split_and!; try done. by rewrite io_Copy_Discard_after_close. }
  destruct (is_EOF (Some ac)) eqn:Heof.
  - eexists. split; [done|]. split_and!; done.
  - rewrite bool_decide_eq_true_2 by done.
    eexists. split; [done|]. split_and!; done.
Qed.

Lemma Size_err_not_EOF (r : objectReadSeeker) (w : World) :
  is_EOF (snd (fst (fst (Size r w)))) = false.
Proof.
  unfold Size, headObject. destruct (head_script _ _); [done|].
  by destruct (objects _ _ _).
Qed.

(** After the fetch ended, every call finds the body closed: no bytes, for
    a [Read] the answer of the closed body, and no new fetch. *)
Lemma run_ended (ac : error) (ops : list Op) (r : objectReadSeeker) (w : World) :
  ended ac r w →
  ∃ os r' w', run ops r w = Some (os, r', w') ∧
    Forall2 (spent_answer ac) ops os ∧ fetches w' = fetches w ∧ ended ac r' w'.
Proof.
  revert r w. induction ops as [|op ops IH]; intros r w Hend; simpl.
  { eexists _, _, _. split; [done|]. split_and!; [constructor|done|done]. }
  assert (Hstep : ∃ o r1 w1, step op r w = Some (o, r1, w1) ∧
            spent_answer ac op o ∧ ended ac r1 w1 ∧ fetches w1 = fetches w).
  { destruct op as [p|off whence|]; simpl.
    - destruct (Read_body_ended ac r p w Hend) as (res & HR & Hr & Hbytes & Herr & Hf & Hend').
      unfold Read. destruct Hend as [-> _]. simpl. rewrite HR. simpl.
      rewrite Hr. eexists _, _, _. split; [done|]. by split_and!.
    - eexists _, _, _. split; [done|]. by split_and!.
    - pose proof (Size_err_not_EOF r w) as HnotEOF.
      destruct (Size_frame r w) as ((_ & Hi & Hrd) & _ & _ & _ & Hbodies & Hf).
      destruct (Size r w) as [[[n e] r1] w1]. simpl in *.
      eexists _, _, _. split; [done|]. split; [by split|]. split; [|done].
      unfold ended. by rewrite Hi, Hrd, Hbodies. }
  destruct Hstep as (o & r1 & w1 & -> & Ho & Hend1 & Hf1). simpl.
  destruct (IH r1 w1 Hend1) as (os & r' & w' & -> & Hall & Hf & Hend'). simpl.
  eexists _, _, _. split; [done|].
  split_and!; [by constructor|congruence|done].
Qed.

Lemma spent_received (ac : error) (ops : list Op) (os : list Obs) :
  Forall2 (spent_answer ac) ops os → received os = [].
Proof.
  induction 1 as [|op o ops os [Hfst _] _ IH]; [done|].
  by rewrite received_cons, Hfst, IH.
Qed.

Lemma spent_eof_count (ac : error) (ops : list Op) (os : list Obs) :
  ac ≠ EOF → Forall2 (spent_answer ac) ops os → eof_count os = 0%nat.
Proof.
  intros Hac. induction 1 as [|op o ops os [_ Hsnd] _ IH]; [done|].
  rewrite eof_count_cons, IH.
  destruct op as [p|off whence|].
  - rewrite Hsnd. by destruct ac.
  - by rewrite Hsnd.
  - by rewrite Hsnd.
Qed.

(** Once a fetch is active, the calls that follow are served from it until
    it ends, whatever they are: a [Seek] among them changes nothing of what
    the [Read]s return. *)
Lemma run_active (ac : error) (ops : list Op) (rest : list byte)
    (r : objectReadSeeker) (w : World) :
  active ac rest r w →
  ∃ os r' w', run ops r w = Some (os, r', w') ∧ fetches w' = fetches w ∧
    ((eof_count os = 0%nat ∧
      ∃ rest', rest = received os ++ rest' ∧ active ac rest' r' w' ∧
               (length rest' + reads_with_room ops ≤ length rest)%nat) ∨
     ((1 ≤ eof_count os)%nat ∧ (ac ≠ EOF → eof_count os = 1%nat) ∧
      received os = rest ∧ ended ac r' w')).
Proof.
  revert rest r w. induction ops as [|op ops IH]; intros rest r w Hact; simpl.
  { eexists _, _, _. split; [done|]. split; [done|]. left. split; [done|].
    exists rest. split_and!; try done. unfold reads_with_room. simpl. lia. }
  rewrite reads_with_room_cons.
  assert (Hquiet : ∀ e r1 w1, step op r w = Some (([], e), r1, w1) →
            is_EOF e = false → has_room op = false → active ac rest r1 w1 →
            fetches w1 = fetches w →
            ∃ os r' w',
              ('(o, r1, w1) ← step op r w;
               '(os, r2, w2) ← run ops r1 w1; Some (o :: os, r2, w2)) = Some (os, r', w') ∧
              fetches w' = fetches w ∧
              ((eof_count os = 0%nat ∧
                ∃ rest', rest = received os ++ rest' ∧ active ac rest' r' w' ∧
                  (length rest' + ((if has_room op then 1 else 0) + reads_with_room ops)
                   ≤ length rest)%nat) ∨
               ((1 ≤ eof_count os)%nat ∧ (ac ≠ EOF → eof_count os = 1%nat) ∧
                received os = rest ∧ ended ac r' w'))).
  { intros e r1 w1 -> He Hroom Hact1 Hf1. simpl.
    destruct (IH rest r1 w1 Hact1) as (os & r' & w' & -> & Hf & Hres). simpl.
    eexists _, _, _. split; [done|]. split; [congruence|].
    rewrite eof_count_cons, received_cons, Hroom. simpl. rewrite He. simpl.
    done. }
  destruct op as [p|off whence|].
  - destruct (Read_body_active ac rest r p w Hact) as (res & HR & Hr & Hres).
    assert (HRead : Read r p w = Some res).
    { unfold Read. destruct Hact as [-> _]. done. }
    assert (Hfw : fetches (rr_world res) = fetches w).
    { revert HR. unfold Read_body. destruct (reader r); simpl; [|done].
      destruct (bodies w !! n); simpl; [|done].
      destruct (body_Read _ _) as [[? err] ?].
      destruct (is_EOF err); [|destruct (bool_decide _)]; by intros [= <-]. }
    simpl. rewrite HRead. simpl. rewrite Hr.
    destruct Hres as [(Herr & rest' & Hsplit & Hact' & Hprog)|(Herr & Hbytes & Hend)].
    + destruct (IH rest' r (rr_world res) Hact') as (os & r' & w' & -> & Hf & Hres').
      simpl. eexists _, _, _. split; [done|]. split; [congruence|].
      rewrite eof_count_cons, received_cons. simpl. rewrite Herr. simpl.
      destruct Hres' as [(Hc & rest'' & Hsplit' & Hact'' & Hlen)|(Hc & Hc1 & Hrec & Hend)].
      * left. split; [done|]. exists rest''. split_and!; try done.
        -- rewrite <- app_assoc, <- Hsplit'. done.
        -- destruct p as [|c p]; simpl.
           ++ assert (length rest' ≤ length rest)%nat; [|lia].
              rewrite Hsplit, length_app. lia.
           ++ specialize (Hprog ltac:(done)). lia.
      * right. split_and!; try done. rewrite Hrec. done.
    + destruct (run_ended ac ops r (rr_world res) Hend)
        as (os & r' & w' & Hrun & Hall & Hf & Hend').
      rewrite Hrun. simpl. eexists _, _, _. split; [done|]. split; [congruence|].
      right. rewrite eof_count_cons, received_cons. simpl. rewrite Herr. simpl.
      rewrite (spent_received ac ops os Hall), app_nil_r.
      split_and!; [lia| |done|done].
      intros Hac. by rewrite (spent_eof_count ac ops os Hac Hall).
  - apply (Hquiet None (set_offset off r) w); try done.
  - pose proof (Size_err_not_EOF r w) as HnotEOF.
    destruct (Size_frame r w) as ((_ & Hi & Hrd) & _ & _ & _ & Hbodies & Hf).
    destruct (Size r w) as [[[n e] r1] w1] eqn:HSize. simpl in *.
    apply (Hquiet e r1 w1); try done.
    + simpl. by rewrite HSize.
    + unfold active. by rewrite Hi, Hrd, Hbodies.
Qed.

(** Before the first fetch, with no [Seek] to come: the first [Read] starts
    the fetch at the offset of the stream. *)
Lemma run_fresh (ac : error) (ops : list Op) (content : list byte)
    (r : objectReadSeeker) (w : World) :
  no_seek ops → fresh ac content r w →
  ∃ os r' w', run ops r w = Some (os, r', w') ∧
    ((eof_count os = 0%nat ∧
      ∃ rest', byte_range (offset r) 0 content = received os ++ rest' ∧
               (length rest' + reads_with_room ops
                ≤ length (byte_range (offset r) 0 content))%nat) ∨
     ((1 ≤ eof_count os)%nat ∧ (ac ≠ EOF → eof_count os = 1%nat) ∧
      received os = byte_range (offset r) 0 content ∧ ended ac r' w')).
Proof.
  revert r w. induction ops as [|op ops IH]; intros r w Hns Hfresh.
  { eexists _, _, _. split; [done|]. left. split; [done|].
    exists (byte_range (offset r) 0 content). split; [done|].
    change (reads_with_room []) with 0%nat. lia. }
  apply Forall_cons in Hns as [Hop Hns].
  pose proof Hfresh as (HisRead & Hobj & plan & eager & Hscript & Hplan).
  destruct op as [p|off whence|]; [| done |].
  - set (b := {| b_data := byte_range (offset r) 0 content; b_plan := plan;
                 b_eof_with_data := eager; b_err := None; b_closed := false;
                 b_after_close := ac |}).
    set (r1 := set_isRead true (set_reader (Some (length (bodies w))) r)).
    set (w1 := {| bodies := bodies w ++ [b]; fetches := S (fetches w); heads := heads w |}).
    assert (Hact : active ac (byte_range (offset r) 0 content) r1 w1).
    { split; [done|]. exists (length (bodies w)), b. split_and!; try done.
      simpl. rewrite lookup_app_r by done. by rewrite Nat.sub_diag. }
    assert (Hsame : step (OpRead p) r w = step (OpRead p) r1 w1).
    { simpl. unfold Read at 1. rewrite HisRead. simpl.
      unfold getObject. rewrite Hscript, Hobj. done. }
    destruct (run_active ac (OpRead p :: ops) _ r1 w1 Hact)
      as (os & r' & w' & Hrun & _ & Hres).
    exists os, r', w'. split.
    + rewrite <- Hrun. change (run (OpRead p :: ops) r w) with
        ('(o, r1, w1) ← step (OpRead p) r w;
         '(os, r2, w2) ← run ops r1 w1; Some (o :: os, r2, w2)).
      by rewrite Hsame.
    + destruct Hres as [(Hc & rest' & Hsplit & _ & Hlen)|(Hc & Hc1 & Hrec & Hend)];
        [left|right].
      * split; [done|]. by exists rest'.
      * done.
  - pose proof (Size_err_not_EOF r w) as HnotEOF.
    destruct (Size_frame r w) as ((Hoff & Hi & Hrd) & Hapi & Hb & Ho & Hbodies & Hf).
    simpl. destruct (Size r w) as [[[n e] r1] w1] eqn:HSize. simpl in *.
    destruct (IH r1 w1 Hns) as (os & r' & w' & -> & Hres).
    { unfold fresh. rewrite Hi, Hapi, Hb, Ho, Hf. done. }
    simpl. eexists _, _, _. split; [done|].
    rewrite eof_count_cons, received_cons, reads_with_room_cons. simpl.
    rewrite HnotEOF. simpl. by rewrite <- Hoff.
Qed.

(** C2 (amended): on a stream that is never sought, whose object exists and
    whose fetch starts and delivers without a transport fault, the bytes
    returned by the successive [Read]s (with [Size] calls anywhere among
    them) are a prefix of the object; they are the whole object as soon as
    a [Read] has reported io.EOF, which happens at the latest when the
    [Read]s with a non-empty buffer outnumber the bytes of the object.
    After that, every further [Read] returns no byte and what the closed
    body answers: io.EOF is reported at most once when this answer is an
    error other than io.EOF, and again when it is io.EOF. *)
Theorem sequential_reads_return_the_object
    (a : API) (bucket object : string) (content : list byte) (w0 : World)
    (plan : list ReadEvent) (eager : bool) (ac : error) (ops : list Op) :
  objects a bucket object = Some content →
  fetch_script a (fetches w0) = FetchOk plan eager ac →
  no_fail plan →
  no_seek ops →
  ∃ os r w,
    run ops (newObjectReadSeeker a bucket object) w0 = Some (os, r, w) ∧
    (∃ rest, content = received os ++ rest) ∧
    ((1 ≤ eof_count os)%nat → received os = content) ∧
    ((length content < reads_with_room ops)%nat →
       (1 ≤ eof_count os)%nat ∧ received os = content) ∧
    (ac ≠ EOF → (eof_count os ≤ 1)%nat) ∧
    ((1 ≤ eof_count os)%nat →
       ∀ p, ∃ res, Read r p w = Some res ∧ rr_bytes res = [] ∧ rr_err res = Some ac).
Proof.
  intros Hobj Hscript Hplan Hns.
  destruct (run_fresh ac ops content (newObjectReadSeeker a bucket object) w0 Hns)
    as (os & r & w & Hrun & Hres).
  { split; [done|]. split; [done|]. by exists plan, eager. }
  exists os, r, w. split; [done|].
  change (byte_range (offset (newObjectReadSeeker a bucket object)) 0 content)
    with content in Hres.
  destruct Hres as [(Hc & rest & Hsplit & Hlen)|(Hc & Hc1 & Hrec & Hend)].
  - split_and!; [by exists rest | lia | lia | lia | lia].
  - split_and!; [exists []; by rewrite app_nil_r | done | done | |].
    + intros Hac. rewrite (Hc1 Hac). lia.
    + intros _ p.
      destruct (Read_body_ended ac r p w Hend) as (res & HR & _ & Hbytes & Herr & _).
      exists res. unfold Read. destruct Hend as [-> _]. done.
Qed.

Lemma sequential_reads_return_the_object_witness :
  objects slow_api "bucket" "blob" = Some blob ∧
  fetch_script slow_api (fetches World0)
    = FetchOk (replicate 5 (Chunk 2)) false ErrBodyClosed ∧
  no_fail (replicate 5 (Chunk 2)) ∧
  no_seek (OpSize :: replicate 11 (OpRead (buf 4))) ∧
  (length blob < reads_with_room (OpSize :: replicate 11 (OpRead (buf 4))))%nat ∧
  ErrBodyClosed ≠ EOF ∧
  ∃ os r w res,
    run (OpSize :: replicate 11 (OpRead (buf 4)))
        (newObjectReadSeeker slow_api "bucket" "blob") World0 = Some (os, r, w) ∧
    received os = blob ∧ eof_count os = 1%nat ∧
    Read r (buf 4) w = Some res ∧ rr_bytes res = [] ∧ rr_err res = Some ErrBodyClosed.
Proof.
  assert (H1 : no_fail (replicate 5 (Chunk 2))) by (by repeat constructor).
  assert (H2 : no_seek (OpSize :: replicate 11 (OpRead (buf 4))))
    by (by repeat constructor).
  assert (H3 : (length blob
                < reads_with_room (OpSize :: replicate 11 (OpRead (buf 4))))%nat)
    by (vm_compute; lia).
  assert (H4 : ErrBodyClosed ≠ EOF) by discriminate.
  split; [reflexivity|]. split; [reflexivity|]. split; [exact H1|].
  split; [exact H2|]. split; [exact H3|]. split; [exact H4|].
  destruct (sequential_reads_return_the_object slow_api "bucket" "blob" blob World0
              (replicate 5 (Chunk 2)) false ErrBodyClosed
              (OpSize :: replicate 11 (OpRead (buf 4))) eq_refl eq_refl H1 H2)
    as (os & r & w & Hrun & _ & _ & Hall & Hone & Hnext).
  destruct (Hall H3) as [Hge Hrec]. specialize (Hone H4).
  destruct (Hnext Hge (buf 4)) as (res & HRead & Hbytes & Herr).
  exists os, r, w, res. split; [exact Hrun|]. split; [exact Hrec|].
  split; [lia|]. split; [exact HRead|]. split; [exact Hbytes | exact Herr].
Defined.

(** The claim of the specification on the object with no byte, whose body
    is [http.NoBody]: a [Read] after the one that reported io.EOF reports
    io.EOF again, so that two [Read]s report it twice. *)
Lemma Read_after_EOF_reports_EOF_again :
  objects empty_api "bucket" "empty" = Some [] ∧
  no_seek [OpRead (buf 4); OpRead (buf 4)] ∧
  obs_of (run [OpRead (buf 4); OpRead (buf 4)]
            (newObjectReadSeeker empty_api "bucket" "empty") World0) =
    Some [([], Some EOF); ([], Some EOF)] ∧
  eof_count [([], Some EOF); ([], Some EOF)] = 2%nat ∧
  ¬ returns_object_once [] [([], Some EOF); ([], Some EOF)].
Proof.
  split_and!; [reflexivity | by repeat constructor | vm_compute; reflexivity
              | reflexivity |].
  intros [_ Hc]. discriminate Hc.
Qed.

(** What the callers of such a sequence see on the slow far end: chunks of
    three bytes, the last byte alone, io.EOF on the next [Read], and
    "closed" on every later one. *)
Example slow_reads_observed :
  obs_of (run (OpSize :: replicate 7 (OpRead (buf 4)))
            (newObjectReadSeeker slow_api "bucket" "blob") World0) =
  Some [ ([], None);
         (String.list_byte_of_string "012", None);
         (String.list_byte_of_string "345", None);
         (String.list_byte_of_string "678", None);
         (String.list_byte_of_string "9", None);
         ([], Some EOF);
         ([], Some ErrBodyClosed);
         ([], Some ErrBodyClosed) ].
Proof. vm_compute. reflexivity. Qed.

(** ** [Seek] and the active fetch *)

(** X1: before the first [Read], the offset recorded by [Seek] is where the
    fetch starts: on a new stream sought to a position [k] of the object
    (whatever [whence] is), with a fetch that delivers, the [Read]s return
    the object from byte [k] on; io.EOF is reported, and reported once when
    the closed body answers a read with an error other than io.EOF. *)
Lemma Seek_before_first_Read
    (a : API) (bucket object : string) (content : list byte) (w0 : World)
    (plan : list ReadEvent) (eager : bool) (ac : error) (k whence : Z) (ops : list Op) :
  objects a bucket object = Some content →
  fetch_script a (fetches w0) = FetchOk plan eager ac →
  no_fail plan → no_seek ops →
  0 ≤ k ≤ Z.of_nat (length content) →
  (length (drop (Z.to_nat k) content) < reads_with_room ops)%nat →
  ∃ os r w,
    run ops (snd (Seek (newObjectReadSeeker a bucket object) k whence)) w0
      = Some (os, r, w) ∧
    received os = drop (Z.to_nat k) content ∧
    (1 ≤ eof_count os)%nat ∧ (ac ≠ EOF → eof_count os = 1%nat).
Proof.
  intros Hobj Hscript Hplan Hns _ Hlen.
  destruct (run_fresh ac ops content
              (snd (Seek (newObjectReadSeeker a bucket object) k whence)) w0 Hns)
    as (os & r & w & Hrun & Hres).
  { split; [done|]. split; [done|]. by exists plan, eager. }
  exists os, r, w. split; [done|].
  change (byte_range (offset (snd (Seek (newObjectReadSeeker a bucket object) k whence)))
            0 content) with (drop (Z.to_nat k) content) in Hres.
  destruct Hres as [(_ & rest & _ & Hle)|(Hc & Hc1 & Hrec & _)]; [lia|done].
Qed.

(** X5: while [isRead] is set, [Read] does not look at the offset: after a
    [Seek] it returns the count, error and buffer, and leaves the world, that
    it would have without the [Seek]. *)
Lemma Seek_during_fetch_is_not_seen
    (r : objectReadSeeker) (w : World) (k whence : Z) (p : list byte) :
  isRead r = true →
  match Read (snd (Seek r k whence)) p w, Read r p w with
  | Some res, Some res' =>
      rr_n res = rr_n res' ∧ rr_err res = rr_err res' ∧ rr_buf res = rr_buf res' ∧
      rr_world res = rr_world res'
  | None, None => True
  | _, _ => False
  end.
Proof.
  intros HisRead. unfold Read. simpl. rewrite HisRead. simpl.
  unfold Read_body. simpl.
  destruct (reader r) as [h|]; simpl; [|done].
  destruct (bodies w !! h) as [b|]; simpl; [|done].
  destruct (body_Read b (length p)) as [[x err] b1].
  destruct (is_EOF err); [|destruct (bool_decide _)]; done.
Qed.

(** C1, the code at the scenario of the specification: on the ten-byte
    object, [Read] of five bytes, [Seek(2)], [Read] of ten bytes.  The second
    [Read] returns the five bytes from position 5 on, where the fetch had
    got to, with io.EOF; a new stream sought to 2 returns the eight bytes
    from position 2 on. *)
Theorem Seek_after_Read_is_served_from_old_position :
  obs_of (run [OpRead (buf 5); OpSeek 2 0; OpRead (buf 10)]
            (newObjectReadSeeker steady_api "bucket" "blob") World0) =
    Some [ (String.list_byte_of_string "01234", None);
           ([], None);
           (String.list_byte_of_string "56789", Some EOF) ] ∧
  obs_of (run [OpSeek 2 0; OpRead (buf 10)]
            (newObjectReadSeeker steady_api "bucket" "blob") World0) =
    Some [ ([], None);
           (String.list_byte_of_string "23456789", Some EOF) ].
Proof. split; vm_compute; reflexivity. Qed.

(** C4, the code at a failing [Read]: the body read fails, [Read] returns 0
    and the error, and the stream is left with [isRead] set and the closed
    body held (a new stream has [isRead] unset and no body).  The same
    [Read] again reads the closed body: it issues no fetch (the count of
    fetches stays 1) and reports "closed". *)
Theorem failed_Read_keeps_the_closed_handle :
  let r0 := newObjectReadSeeker reset_api "bucket" "blob" in
  obs_of (run [OpRead (buf 5)] r0 World0) = Some [([], Some (ErrTransport 104))] ∧
  state_of (run [OpRead (buf 5)] r0 World0) = Some (true, Some 0%nat, [true], 1%nat) ∧
  state_of (run [] r0 World0) = Some (false, None, [], 0%nat) ∧
  obs_of (run [OpRead (buf 5); OpRead (buf 5)] r0 World0) =
    Some [([], Some (ErrTransport 104)); ([], Some ErrBodyClosed)] ∧
  state_of (run [OpRead (buf 5); OpRead (buf 5)] r0 World0) =
    Some (true, Some 0%nat, [true], 1%nat).
Proof. intros r0. split_and!; vm_compute; reflexivity. Qed.

(** * Properties of [tempFile] *)

Lemma OpenFile_excl_ok (path : list string) (fs fs' : os.FS) (o : option os.File) :
  os.OpenFile_excl path fs = ((o, None), fs') →
  ∃ f, o = Some f ∧ os.Name f = path ∧ path ≠ [] ∧
       os.nodes fs' !! path = Some os.RegularFile ∧ os.tmpdir fs' = os.tmpdir fs.
Proof.
  unfold os.OpenFile_excl.
  destruct (os.Lexists fs path) eqn:Hex; [done|].
  destruct (negb _); [done|]. destruct (bool_decide _); [done|].
  intros [= <- <-]. eexists. split; [done|]. simpl. split_and!; try done.
  - intros ->. done.
  - by rewrite lookup_insert_eq.
Qed.

Lemma TempFile_try_ok (tries : nat) (dir : list string) (prefix : string)
    (fs fs' : os.FS) (o : option os.File) :
  ioutil.TempFile_try tries dir prefix fs = ((o, None), fs') →
  ∃ f, o = Some f ∧ os.Name f ≠ [] ∧
       os.nodes fs' !! os.Name f = Some os.RegularFile ∧ os.tmpdir fs' = os.tmpdir fs.
Proof.
  revert fs. induction tries as [|tries IH]; intros fs; simpl; [done|].
  destruct (os.OpenFile_excl _ _) as [[o1 [e|]] fs2] eqn:Hopen.
  - destruct e; try done. intros H. destruct (IH _ H) as (f & ? & ? & ? & Htmp).
    exists f. split_and!; try done. rewrite Htmp.
    unfold os.OpenFile_excl in Hopen.
    destruct (os.Lexists _ _); [by inversion Hopen|].
    destruct (negb _); [by inversion Hopen|]. by destruct (bool_decide _).
  - intros [= <- <-].
    destruct (OpenFile_excl_ok _ _ _ _ Hopen) as (f & -> & Hname & Hne & Hnode & Htmp).
    exists f. rewrite Hname. done.
Qed.

(** [newTempFile] hands out a file that exists and that the resource owns. *)
Lemma newTempFile_ok (prefix : string) (fs fs1 : os.FS) (t : tempFile) :
  newTempFile prefix fs = ((Some t, None), fs1) →
  ∃ f, File t = Some f ∧ os.Name f ≠ [] ∧ os.Lexists fs1 (os.Name f) = true.
Proof.
  unfold newTempFile, ioutil.TempFile.
  destruct (ioutil.TempFile_try _ _ _ _) as [[o [e|]] fs2] eqn:Htry; [done|].
  intros [= <- <-].
  destruct (TempFile_try_ok _ _ _ _ _ _ Htry) as (f & -> & Hne & Hnode & _).
  exists f. split_and!; try done.
  unfold os.Lexists. destruct (os.Name f); [done|]. rewrite Hnode.
  by apply bool_decide_eq_true.
Qed.

Lemma OpenFile_excl_failed (path : list string) (fs fs' : os.FS)
    (o : option os.File) (e : error) :
  os.OpenFile_excl path fs = ((o, Some e), fs') → o = None ∧ fs' = fs.
Proof.
  unfold os.OpenFile_excl. destruct (os.Lexists fs path); [by intros [= <- _ <-]|].
  destruct (negb _); [by intros [= <- _ <-]|]. by destruct (bool_decide _); intros [= <- _ <-].
Qed.

Lemma OpenFile_excl_created (path : list string) (fs fs' : os.FS) (o : option os.File) :
  os.OpenFile_excl path fs = ((o, None), fs') →
  o = Some {| os.Name := path; os.fd := os.next_fd fs |} ∧
  os.nodes fs !! path = None ∧ path ≠ [] ∧
  os.IsDir fs (removelast path) = true ∧
  os.nodes fs' = <[path := os.RegularFile]> (os.nodes fs) ∧
  os.open_fds fs' = {[os.next_fd fs]} ∪ os.open_fds fs ∧
  os.locked fs' = os.locked fs ∧ os.tmpdir fs' = os.tmpdir fs.
Proof.
  unfold os.OpenFile_excl.
  destruct (os.Lexists fs path) eqn:Hex; [done|].
  destruct (os.IsDir fs (removelast path)) eqn:Hdir; simpl; [|done].
  destruct (bool_decide _); [done|]. intros [= <- <-]. simpl.
  split_and!; try done.
  - destruct path as [|c q]; [done|]. simpl in Hex.
    apply bool_decide_eq_false in Hex. by apply eq_None_not_Some.
  - intros ->. done.
Qed.

(** What [TempFile] has done when it returns: on success one new regular
    file named by the prefix and the digits of a number, open in the
    process; on failure nothing. *)
Lemma TempFile_try_spec (tries : nat) (dir : list string) (prefix : string)
    (fs fs' : os.FS) (o : option os.File) (err : option error) :
  ioutil.TempFile_try tries dir prefix fs = ((o, err), fs') →
  os.locked fs' = os.locked fs ∧ os.tmpdir fs' = os.tmpdir fs ∧
  match err with
  | Some _ =>
      o = None ∧ os.nodes fs' = os.nodes fs ∧ os.open_fds fs' = os.open_fds fs
  | None =>
      ∃ (f : os.File) (k : nat), o = Some f ∧
        os.Name f = filepath.Join dir (String.append prefix (pretty k)) ∧
        os.fd f = os.next_fd fs ∧
        os.nodes fs !! os.Name f = None ∧ os.Name f ≠ [] ∧
        os.IsDir fs (removelast (os.Name f)) = true ∧
        os.nodes fs' = <[os.Name f := os.RegularFile]> (os.nodes fs) ∧
        os.open_fds fs' = {[os.fd f]} ∪ os.open_fds fs
  end.
Proof.
  revert fs. induction tries as [|tries IH]; intros fs; simpl.
  { intros [= <- <- <-]. done. }
  destruct (os.OpenFile_excl _ _) as [[o1 [e|]] fs2] eqn:Hopen.
  - destruct (OpenFile_excl_failed _ _ _ _ _ Hopen) as [-> ->].
    assert (Hrest : ioutil.TempFile_try tries dir prefix
              {| os.nodes := os.nodes fs; os.locked := os.locked fs;
                 os.open_fds := os.open_fds fs; os.next_fd := os.next_fd fs;
                 os.tmpdir := os.tmpdir fs; os.rand := S (os.rand fs) |} = (o, err, fs') →
            os.locked fs' = os.locked fs ∧ os.tmpdir fs' = os.tmpdir fs ∧
            match err with
            | Some _ =>
                o = None ∧ os.nodes fs' = os.nodes fs ∧ os.open_fds fs' = os.open_fds fs
            | None =>
                ∃ (f : os.File) (k : nat), o = Some f ∧
                  os.Name f = filepath.Join dir (String.append prefix (pretty k)) ∧
                  os.fd f = os.next_fd fs ∧
                  os.nodes fs !! os.Name f = None ∧ os.Name f ≠ [] ∧
                  os.IsDir fs (removelast (os.Name f)) = true ∧
                  os.nodes fs' = <[os.Name f := os.RegularFile]> (os.nodes fs) ∧
                  os.open_fds fs' = {[os.fd f]} ∪ os.open_fds fs
            end) by (intros H; exact (IH _ H)).
    destruct e; try (intros [= <- <- <-]; done). exact Hrest.
  - intros [= <- <- <-].
    destruct (OpenFile_excl_created _ _ _ _ Hopen)
      as (-> & Hnone & Hne & Hdir & Hnodes & Hfds & Hl & Ht).
    split; [done|]. split; [done|]. eexists _, (os.rand fs). simpl. split_and!; done.
Qed.

Lemma Remove_ok (path : list string) (fs fs' : os.FS) :
  os.Remove path fs = (None, fs') →
  fs' = os.set_nodes (delete path (os.nodes fs)) fs.
Proof.
  unfold os.Remove. destruct (os.nodes fs !! path) as [kind|]; [|done].
  destruct (bool_decide _); [done|].
  destruct kind; [by intros [= <-]|].
  destruct (os.Readdirnames fs path); [by intros [= <-]|done].
Qed.

Lemma Remove_failed (path : list string) (fs fs' : os.FS) (e : error) :
  os.Remove path fs = (Some e, fs') → fs' = fs.
Proof.
  unfold os.Remove. destruct (os.nodes fs !! path) as [kind|]; [|by intros [= _ <-]].
  destruct (bool_decide _); [by intros [= _ <-]|].
  destruct kind; [done|].
  destruct (os.Readdirnames fs path); [done|by intros [= _ <-]].
Qed.

(** A successful [Close] removes the file and gives up the ownership, and
    [Close] on a resource that owns nothing does nothing and succeeds. *)
Lemma Close_ok (t t' : tempFile) (f : os.File) (fs fs' : os.FS) :
  File t = Some f → os.Name f ≠ [] →
  Close t fs = (None, t', fs') →
  os.Lexists fs' (os.Name f) = false ∧ File t' = None ∧
  Close t' fs' = (None, t', fs').
Proof.
  intros Hf Hne. unfold Close at 1. rewrite Hf.
  destruct (os.File_Close f fs) as [[e|] fs1]; [done|].
  destruct (os.Remove (os.Name f) fs1) as [[e|] fs2] eqn:Hrm; [done|].
  intros [= <- <-]. apply Remove_ok in Hrm. subst fs2.
  split_and!; try done.
  unfold os.Lexists. destruct (os.Name f) as [|c q] eqn:Hn; [done|].
  apply bool_decide_eq_false. simpl. rewrite lookup_delete_eq.
  by intros [? ?].
Qed.

(** C8: for a resource that [newTempFile] returned, the file it created
    exists; [Close] then succeeds, unless the system refuses to remove the
    path, the path no longer exists, and the resource owns no file; after
    any [Close] of the resource that succeeds, whatever happened to the
    file system in between, the path no longer exists; and [Close] on the
    resource that owns no file is a no-op that succeeds, in every state of
    the file system. *)
Theorem Close_removes_the_file_once
    (prefix : string) (fs0 fs1 : os.FS) (t : tempFile) :
  newTempFile prefix fs0 = ((Some t, None), fs1) →
  ∃ f, File t = Some f ∧ os.Lexists fs1 (os.Name f) = true ∧
    (os.Name f ∉ os.locked fs1 →
       ∃ fs2, Close t fs1 = (None, {| File := None |}, fs2) ∧
              os.Lexists fs2 (os.Name f) = false ∧
              ∀ fs, Close {| File := None |} fs = (None, {| File := None |}, fs)) ∧
    ∀ (fs fs' : os.FS) (t' : tempFile),
      Close t fs = (None, t', fs') →
      os.Lexists fs' (os.Name f) = false ∧ File t' = None ∧
      Close t' fs' = (None, t', fs').
Proof.
  intros Hnew. destruct (newTempFile_ok _ _ _ _ Hnew) as (f & Hf & Hne & Hex).
  exists f. split; [exact Hf|]. split; [exact Hex|]. split.
  - intros Hfree. revert Hnew. unfold newTempFile, ioutil.TempFile.
    destruct (ioutil.TempFile_try _ _ _ _) as [[o [e|]] fs2] eqn:Htry; [done|].
    intros [= <- ->].
    destruct (TempFile_try_spec _ _ _ _ _ _ _ Htry)
      as (_ & _ & f' & k & -> & _ & _ & _ & _ & _ & Hnodes & Hfds).
    clear Htry. simpl in Hf. injection Hf as ->.
    assert (HClose : ∃ fs2, Close {| File := Some f |} fs1
                       = (None, {| File := None |}, fs2)).
    { unfold Close, os.File_Close. simpl.
      rewrite bool_decide_eq_true_2
        by (rewrite Hfds; apply elem_of_union; left; by apply elem_of_singleton).
      unfold os.Remove. simpl. rewrite Hnodes, lookup_insert_eq.
      rewrite bool_decide_eq_false_2 by done. by eexists. }
    destruct HClose as [fs2 HClose]. exists fs2. split; [exact HClose|]. split.
    + by destruct (Close_ok {| File := Some f |} _ f _ _ eq_refl Hne HClose) as [Hgone _].
    + done.
  - intros fs fs' t'. by apply Close_ok.
Qed.

(** Acquire, release, release again, on the example file system. *)
Example Close_twice :
  let t := {| File := Some {| os.Name := ["tmp"; "up-41"]%string; os.fd := 3 |} |} in
  let fs1 := snd (newTempFile "up-" fs0) in
  fst (newTempFile "up-" fs0) = (Some t, None) ∧
  os.Lexists fs1 ["tmp"; "up-41"]%string = true ∧
  fst (Close t fs1) = (None, {| File := None |}) ∧
  os.Lexists (snd (Close t fs1)) ["tmp"; "up-41"]%string = false ∧
  Close {| File := None |} (snd (Close t fs1)) = (None, {| File := None |}, snd (Close t fs1)).
Proof. split_and!; vm_compute; reflexivity. Qed.

Lemma Close_removes_the_file_once_witness :
  let f := {| os.Name := ["tmp"; "up-41"]%string; os.fd := 3 |} in
  let t := {| File := Some f |} in
  let fs1 := snd (newTempFile "up-" fs0) in
  newTempFile "up-" fs0 = ((Some t, None), fs1) ∧
  (os.Name f ∉ os.locked fs1) ∧
  os.Lexists fs1 (os.Name f) = true ∧
  ∃ fs2, Close t fs1 = (None, {| File := None |}, fs2) ∧
    os.Lexists fs2 (os.Name f) = false ∧
    Close {| File := None |} fs2 = (None, {| File := None |}, fs2).
Proof.
  intros f t fs1.
  assert (H : newTempFile "up-" fs0 = ((Some t, None), fs1)) by (vm_compute; reflexivity).
  assert (Hfree : os.Name f ∉ os.locked fs1).
  { apply (bool_decide_eq_false_1 _). vm_compute. reflexivity. }
  split; [exact H|]. split; [exact Hfree|].
  destruct (Close_removes_the_file_once "up-" fs0 fs1 t H)
    as (f' & Hf & Hex & Hsucc & _).
  injection Hf as <-.
  destruct (Hsucc Hfree) as (fs2 & HClose & Hgone & Hagain).
  split; [exact Hex|]. exists fs2.
  split; [exact HClose|]. split; [exact Hgone | exact (Hagain fs2)].
Defined.

(** * Properties of [cleanupStaleTempfiles] *)

(** ** Plain names in [Join], [Match] and [Glob] *)

Lemma split_no_sep (s : string) : filepath.has_sep s = false → filepath.split s = [s].
Proof.
  induction s as [|c s IH]; simpl; [done|].
  intros [Hc Hs]%orb_false_elim. rewrite Hc, (IH Hs). done.
Qed.

Lemma plain_name_inv (p : string) :
  filepath.plain_name p = true →
  filepath.hasMeta p = false ∧ filepath.has_sep p = false ∧
  p ≠ ""%string ∧ p ≠ "."%string ∧ p ≠ ".."%string.
Proof.
  unfold filepath.plain_name.
  intros [[Hm Hs]%andb_true_iff Hn]%andb_true_iff.
  apply negb_true_iff in Hm, Hs, Hn. apply bool_decide_eq_false in Hn.
  split_and!; try done; intros ->; apply Hn; auto.
Qed.

Lemma Join_plain (dir : list string) (p : string) :
  filepath.plain_name p = true → filepath.Join dir p = dir ++ [p].
Proof.
  intros (_ & Hs & H1 & H2 & H3)%plain_name_inv.
  unfold filepath.Join. rewrite (split_no_sep p Hs). simpl.
  unfold filepath.clean_step.
  rewrite bool_decide_eq_false_2 by (by intros [?|?]).
  by rewrite bool_decide_eq_false_2.
Qed.

Lemma add_suffix_snoc (dir : list string) (c s : string) :
  filepath.add_suffix (dir ++ [c]) s = dir ++ [String.append c s].
Proof.
  unfold filepath.add_suffix.
  destruct (dir ++ [c]) as [|x l] eqn:E; [by destruct dir|].
  rewrite <- E. by rewrite removelast_last, last_last.
Qed.

Lemma scan_step_literal (c : ascii) :
  filepath.is_meta c = false →
  filepath.scan_step filepath.Plain c = Some (filepath.Plain, Some (filepath.TChar c)).
Proof.
  unfold filepath.is_meta, filepath.scan_step.
  intros [[[-> ->]%orb_false_elim ->]%orb_false_elim ->]%orb_false_elim. done.
Qed.

Lemma scan_literal_append (p s : string) :
  filepath.hasMeta p = false →
  filepath.scan filepath.Plain (String.append p s) =
    (fun ts => filepath.literal p ++ ts) <$> filepath.scan filepath.Plain s.
Proof.
  induction p as [|c p IH].
  - intros _. change (String.append "" s) with s. simpl.
    by destruct (filepath.scan _ s).
  - intros [Hc Hp]%orb_false_elim.
    change (String.append (String c p) s) with (String c (String.append p s)).
    cbn [filepath.scan]. rewrite (scan_step_literal c Hc), (IH Hp).
    by destruct (filepath.scan _ s).
Qed.

Lemma scan_literal (p : string) :
  filepath.hasMeta p = false →
  filepath.scan filepath.Plain p = Some (filepath.literal p).
Proof.
  induction p as [|c p IH]; [done|]. cbn [filepath.scan filepath.hasMeta].
  intros [Hc Hp]%orb_false_elim. by rewrite (scan_step_literal c Hc), (IH Hp).
Qed.

Lemma hasMeta_star (p : string) : filepath.hasMeta (String.append p "*") = true.
Proof.
  induction p as [|c p IH]; [done|].
  change (String.append (String c p) "*") with (String c (String.append p "*")).
  simpl. rewrite IH. apply orb_true_r.
Qed.

(** [*] at the end of a pattern takes the rest of a name without separator. *)
Lemma match_star_all (n : string) :
  filepath.has_sep n = false → filepath.match_terms [filepath.TStar] n = true.
Proof.
  induction n as [|c n IH]; [done|].
  intros [Hc Hn]%orb_false_elim. specialize (IH Hn). simpl in *.
  rewrite Hc. simpl. exact IH.
Qed.

(** A plain prefix followed by [*] matches the names that start with it. *)
Lemma match_literal_star (p n : string) :
  filepath.has_sep n = false →
  filepath.match_terms (filepath.literal p ++ [filepath.TStar]) n = String.prefix p n.
Proof.
  revert n. induction p as [|a p IH]; intros n Hn.
  - change (filepath.literal "" ++ [filepath.TStar]) with [filepath.TStar].
    rewrite (match_star_all n Hn). by destruct n.
  - destruct n as [|b n]; [done|].
    simpl in Hn. apply orb_false_elim in Hn as [_ Hn].
    change (filepath.match_terms (filepath.literal (String a p) ++ [filepath.TStar])
              (String b n))
      with (Ascii.eqb a b &&
            filepath.match_terms (filepath.literal p ++ [filepath.TStar]) n).
    rewrite (IH n Hn). simpl.
    destruct (Ascii.eqb_spec a b) as [->|Hne]; destruct (ascii_dec _ _); done.
Qed.

Lemma Match_plain_star (p n : string) :
  filepath.hasMeta p = false → filepath.has_sep n = false →
  filepath.Match (String.append p "*") n = (String.prefix p n, None).
Proof.
  intros Hp Hn. unfold filepath.Match. rewrite (scan_literal_append p "*" Hp). simpl.
  by rewrite match_literal_star.
Qed.

(** ** The stale entries *)

Lemma child_of_spec (dir path : list string) (n : string) :
  os.child_of dir path = Some n ↔ path = dir ++ [n].
Proof.
  revert path. induction dir as [|x dir IH]; intros path; simpl.
  - destruct path as [|y [|z path]]; split; intros H; try done; by inversion H.
  - destruct path as [|y path]; [done|].
    destruct (bool_decide_reflect (x = y)) as [->|Hne].
    + rewrite IH. split; [by intros ->|by intros [= ->]].
    + split; [done|]. intros [= ? ?]. done.
Qed.

Lemma elem_of_Readdirnames (fs : os.FS) (dir : list string) (n : string) :
  n ∈ os.Readdirnames fs dir ↔ is_Some (os.nodes fs !! (dir ++ [n])).
Proof.
  unfold os.Readdirnames. rewrite list_elem_of_omap. split.
  - intros (path & Hin & Hchild). apply child_of_spec in Hchild as ->.
    apply list_elem_of_fmap in Hin as ([q k] & -> & Hin).
    apply elem_of_map_to_list in Hin. simpl. eauto.
  - intros [k Hk]. exists (dir ++ [n]). split; [|by apply child_of_spec].
    apply list_elem_of_fmap. exists (dir ++ [n], k). split; [done|].
    by apply elem_of_map_to_list.
Qed.

Lemma elem_of_stale (prefix : string) (fs : os.FS) (q : list string) :
  q ∈ stale prefix fs ↔
  ∃ n, q = os.TempDir fs ++ [n] ∧ is_Some (os.nodes fs !! q) ∧
       String.prefix prefix n = true.
Proof.
  unfold stale. rewrite list_elem_of_fmap. split.
  - intros (n & -> & Hin). apply list_elem_of_filter in Hin as [Hp Hin].
    rewrite merge_sort_Permutation in Hin. apply elem_of_Readdirnames in Hin. eauto.
  - intros (n & -> & Hex & Hp). exists n. split; [done|].
    apply list_elem_of_filter. split; [done|].
    rewrite merge_sort_Permutation. by apply elem_of_Readdirnames.
Qed.

Lemma filter_ext_Forall {A : Type} (P Q : A → Prop)
    `{!∀ x, Decision (P x), !∀ x, Decision (Q x)} (l : list A) :
  Forall (fun x => P x ↔ Q x) l → filter P l = filter Q l.
Proof.
  induction 1 as [|x l Hx _ IH]; [done|].
  rewrite !filter_cons, IH.
  destruct Hx as [HPQ HQP]. destruct (decide (P x)), (decide (Q x)); try done; exfalso; auto.
Qed.

(** Components without metacharacter are followed one by one. *)
Lemma glob_walk_literal (fs : os.FS) (rest dir : list string) :
  Forall (fun c => filepath.hasMeta c = false) rest →
  (∀ k, (1 ≤ k ≤ length rest)%nat → os.Lexists fs (dir ++ take k rest) = true) →
  foldl (fun dirs c => dirs ≫= filepath.glob_component fs c) [dir] rest = [dir ++ rest].
Proof.
  revert dir. induction rest as [|c rest IH]; intros dir Hmeta Hex; simpl.
  { by rewrite app_nil_r. }
  apply Forall_cons in Hmeta as [Hc Hmeta].
  unfold filepath.glob_component at 2. rewrite Hc.
  assert (H1 : os.Lexists fs (dir ++ [c]) = true) by (apply (Hex 1%nat); simpl; lia).
  rewrite H1. simpl.
  rewrite IH; [by rewrite <- app_assoc|done|].
  intros k Hk. rewrite <- app_assoc. apply (Hex (S k)). simpl. lia.
Qed.

Lemma Glob_plain (prefix : string) (fs : os.FS) :
  filepath.plain_name prefix = true → tempdir_ok fs = true →
  filepath.Glob (filepath.add_suffix (filepath.Join (os.TempDir fs) prefix) "*") fs
    = (stale prefix fs, None).
Proof.
  intros Hplain Hok. pose proof (plain_name_inv _ Hplain) as (Hmeta & _).
  unfold tempdir_ok in Hok.
  apply andb_true_iff in Hok as [[[Htmp Hex]%andb_true_iff Hdir]%andb_true_iff Hnames].
  rewrite forallb_forall in Htmp, Hex, Hnames.
  rewrite (Join_plain _ _ Hplain), add_suffix_snoc. unfold filepath.Glob.
  assert (Hvalid : forallb (fun c => bool_decide (is_Some (filepath.scan filepath.Plain c)))
                     (os.TempDir fs ++ [String.append prefix "*"]) = true).
  { rewrite forallb_app. apply andb_true_iff. split.
    - apply forallb_forall. intros c Hc. apply bool_decide_eq_true.
      specialize (Htmp c Hc). apply negb_true_iff in Htmp.
      rewrite (scan_literal c Htmp). eauto.
    - simpl. rewrite (scan_literal_append prefix "*" Hmeta). done. }
  rewrite Hvalid. f_equal. rewrite foldl_app.
  rewrite (glob_walk_literal fs (os.TempDir fs) []).
  - simpl. rewrite app_nil_r. unfold filepath.glob_component.
    rewrite hasMeta_star, Hdir. unfold stale. f_equal.
    apply filter_ext_Forall. apply Forall_forall. intros n Hn.
    rewrite merge_sort_Permutation in Hn.
    assert (Hsep : filepath.has_sep n = false).
    { apply negb_true_iff. apply Hnames. by apply list_elem_of_In. }
    by rewrite (Match_plain_star prefix n Hmeta Hsep).
  - apply Forall_forall. intros c Hc. apply negb_true_iff. apply Htmp.
    by apply list_elem_of_In.
  - intros k Hk. simpl. apply Hex. apply in_seq. lia.
Qed.

(** ** The loop *)

Lemma lookup_removed (removed : list (list string)) (m : gmap (list string) os.Kind)
    (q : list string) :
  foldl (fun m q => delete q m) m removed !! q =
    if bool_decide (q ∈ removed) then None else m !! q.
Proof.
  revert m. induction removed as [|x removed IH]; intros m; simpl; [done|].
  rewrite IH. destruct (bool_decide_reflect (q ∈ removed)) as [Hin|Hnin].
  - rewrite bool_decide_eq_true_2; [done|by right].
  - destruct (decide (q = x)) as [->|Hne].
    + rewrite bool_decide_eq_true_2 by left. apply lookup_delete_eq.
    + rewrite bool_decide_eq_false_2.
      * by apply lookup_delete_ne.
      * intros [?|?]%elem_of_cons; done.
Qed.

(** The loop removes the paths in order and stops at the first that
    [Remove] refuses, leaving the later ones alone. *)
Lemma remove_each_spec (staleFiles : list (list string)) (fs : os.FS) :
  ∃ removed,
    snd (remove_each staleFiles fs) = removed_from removed fs ∧
    match fst (remove_each staleFiles fs) with
    | None => removed = staleFiles
    | Some err =>
        ∃ q rest, staleFiles = removed ++ q :: rest ∧
          os.Remove q (removed_from removed fs) = (Some err, removed_from removed fs)
    end.
Proof.
  revert fs. induction staleFiles as [|q rest IH]; intros fs; simpl.
  { exists []. split; [by destruct fs|done]. }
  destruct (os.Remove q fs) as [[err|] fs1] eqn:Hrm; simpl.
  - pose proof (Remove_failed _ _ _ _ Hrm) as ->.
    exists []. assert (Hid : removed_from [] fs = fs) by (by destruct fs).
    split; [done|]. exists q, rest. by rewrite Hid.
  - pose proof (Remove_ok _ _ _ Hrm) as ->.
    destruct (IH (os.set_nodes (delete q (os.nodes fs)) fs)) as (removed & Hfs & Hres).
    exists (q :: removed). split; [by rewrite Hfs|].
    destruct (fst (remove_each rest _)) as [err|].
    + destruct Hres as (q' & rest' & -> & Hrm'). exists q', rest'. done.
    + by rewrite Hres.
Qed.

(** With the prefix "d?" the sweep succeeds and removes "decoy", whose
    name does not start with "d?": the prefix is part of a pattern. *)
Lemma cleanup_takes_prefix_as_pattern :
  fst (cleanupStaleTempfiles "d?" fs0) = None ∧
  os.nodes fs0 !! ["tmp"; "decoy"]%string = Some os.RegularFile ∧
  os.nodes (snd (cleanupStaleTempfiles "d?" fs0)) !! ["tmp"; "decoy"]%string = None ∧
  String.prefix "d?" "decoy" = false ∧
  ¬ sweeps_exactly_prefix "d?" fs0.
Proof.
  assert (Hgone : os.nodes (snd (cleanupStaleTempfiles "d?" fs0))
                    !! ["tmp"; "decoy"]%string = None) by (vm_compute; reflexivity).
  assert (Hthere : os.nodes fs0 !! ["tmp"; "decoy"]%string = Some os.RegularFile)
    by (vm_compute; reflexivity).
  split; [vm_compute; reflexivity|]. split; [exact Hthere|]. split; [exact Hgone|].
  split; [reflexivity|].
  intros H. specialize (H "decoy"%string).
  destruct H as [H _]; [by eexists|]. specialize (H Hgone). discriminate H.
Qed.

(** C9 (amended): for a prefix that is a plain name (no [*], [?], square
    bracket or backslash, no separator, and not empty, "." or "..") and a
    temporary directory that exists and whose own path has none of these
    pattern characters (the names of its entries have no separator), the
    sweep removes entries of the temporary directory whose name starts with
    the prefix, in order of name, and changes nothing else.  When it
    succeeds it has removed all of them; when no entry matches it removes
    nothing and succeeds; and when it fails, the error is the one of the
    first entry that [Remove] refused, and that entry and the later ones
    are left. *)
Theorem cleanup_removes_entries_with_plain_prefix (prefix : string) (fs : os.FS) :
  filepath.plain_name prefix = true → tempdir_ok fs = true →
  (∀ q, q ∈ stale prefix fs ↔
        ∃ n, q = os.TempDir fs ++ [n] ∧ is_Some (os.nodes fs !! q) ∧
             String.prefix prefix n = true) ∧
  (stale prefix fs = [] → cleanupStaleTempfiles prefix fs = (None, fs)) ∧
  ∃ removed,
    snd (cleanupStaleTempfiles prefix fs) = removed_from removed fs ∧
    (∀ q, os.nodes (snd (cleanupStaleTempfiles prefix fs)) !! q =
          if bool_decide (q ∈ removed) then None else os.nodes fs !! q) ∧
    match fst (cleanupStaleTempfiles prefix fs) with
    | None => removed = stale prefix fs
    | Some err =>
        ∃ q rest, stale prefix fs = removed ++ q :: rest ∧
          os.Remove q (removed_from removed fs) = (Some err, removed_from removed fs)
    end.
Proof.
  intros Hplain Hok. split; [apply elem_of_stale|].
  unfold cleanupStaleTempfiles. rewrite (Glob_plain prefix fs Hplain Hok).
  split.
  - intros ->. done.
  - destruct (remove_each_spec (stale prefix fs) fs) as (removed & Hfs & Hres).
    exists removed. split; [done|]. split; [|done].
    intros q. rewrite Hfs. simpl. apply lookup_removed.
Qed.

Lemma cleanup_removes_entries_with_plain_prefix_witness :
  filepath.plain_name "a" = true ∧ tempdir_ok fs0 = true ∧
  (∀ q, q ∈ stale "a" fs0 ↔
        ∃ n, q = os.TempDir fs0 ++ [n] ∧ is_Some (os.nodes fs0 !! q) ∧
             String.prefix "a" n = true) ∧
  (stale "a" fs0 = [] → cleanupStaleTempfiles "a" fs0 = (None, fs0)) ∧
  ∃ removed,
    snd (cleanupStaleTempfiles "a" fs0) = removed_from removed fs0 ∧
    (∀ q, os.nodes (snd (cleanupStaleTempfiles "a" fs0)) !! q =
          if bool_decide (q ∈ removed) then None else os.nodes fs0 !! q) ∧
    match fst (cleanupStaleTempfiles "a" fs0) with
    | None => removed = stale "a" fs0
    | Some err =>
        ∃ q rest, stale "a" fs0 = removed ++ q :: rest ∧
          os.Remove q (removed_from removed fs0) = (Some err, removed_from removed fs0)
    end.
Proof.
  assert (H1 : filepath.plain_name "a" = true) by (vm_compute; reflexivity).
  assert (H2 : tempdir_ok fs0 = true) by (vm_compute; reflexivity).
  split; [exact H1|]. split; [exact H2|].
  exact (cleanup_removes_entries_with_plain_prefix "a" fs0 H1 H2).
Defined.

(** The three cases on the example file system: "a" stops at "abc", which
    cannot be removed, after "a?1" and "ab1" are gone; "de" removes "decoy"
    alone; "zz" matches nothing. *)
Example cleanup_observed :
  stale "a" fs0 = [["tmp"; "a?1"]; ["tmp"; "ab1"]; ["tmp"; "abc"]]%string ∧
  fst (cleanupStaleTempfiles "a" fs0) = Some ErrPermission ∧
  snd (cleanupStaleTempfiles "a" fs0)
    = removed_from [["tmp"; "a?1"]; ["tmp"; "ab1"]]%string fs0 ∧
  cleanupStaleTempfiles "de" fs0 = (None, removed_from [["tmp"; "decoy"]]%string fs0) ∧
  cleanupStaleTempfiles "zz" fs0 = (None, fs0).
Proof. split_and!; vm_compute; reflexivity. Qed.

(** Why the prefix has to be a plain name: the empty prefix makes the
    pattern "/tmp*", which selects the temporary directory itself; a prefix
    with a separator reaches into a subdirectory; an open bracket makes the
    pattern malformed, and nothing is removed. *)
Example cleanup_other_prefixes :
  cleanupStaleTempfiles "" fs0 = (Some ErrNotEmpty, fs0) ∧
  cleanupStaleTempfiles "cache/x" fs0
    = (None, removed_from [["tmp"; "cache"; "x"]]%string fs0) ∧
  cleanupStaleTempfiles "a[" fs0 = (Some ErrBadPattern, fs0).
Proof. split_and!; vm_compute; reflexivity. Qed.

(** Why the path of the temporary directory must have no pattern
    character: with the temporary directory "/t[m]p" the pattern is
    "/t[m]p/p*", which selects the entries of "/tmp".  The sweep with the
    plain prefix "p" leaves "/t[m]p/pa" and removes "/tmp/pb". *)
Example cleanup_takes_tempdir_as_pattern :
  filepath.plain_name "p" = true ∧ tempdir_ok fs_bracket = false ∧
  fst (cleanupStaleTempfiles "p" fs_bracket) = None ∧
  os.nodes fs_bracket !! ["tmp"; "pb"]%string = Some os.RegularFile ∧
  os.nodes (snd (cleanupStaleTempfiles "p" fs_bracket)) !! ["tmp"; "pb"]%string = None ∧
  os.nodes (snd (cleanupStaleTempfiles "p" fs_bracket)) !! ["t[m]p"; "pa"]%string
    = Some os.RegularFile.
Proof. split_and!; vm_compute; reflexivity. Qed.

(** * Further properties of the stream *)

(** One [Read] of a held body: the stream is unchanged, and of the world
    only the held body. *)
Lemma Read_body_shape (r : objectReadSeeker) (p : list byte) (w : World) (h : nat) :
  reader r = Some h → (h < length (bodies w))%nat →
  ∃ res b', Read_body r p w = Some res ∧ rr_stream res = r ∧
    bodies (rr_world res) = <[h := b']> (bodies w) ∧
    fetches (rr_world res) = fetches w ∧
    (rr_err res ≠ None → b_closed b' = true).
Proof.
  intros Hrd Hlt. destruct (lookup_lt_is_Some_2 _ _ Hlt) as [b Hb].
  unfold Read_body. rewrite Hrd. simpl. rewrite Hb. simpl.
  destruct (body_Read b (length p)) as [[data err] b1].
  destruct (is_EOF err) eqn:Heof; [|destruct (bool_decide (err ≠ None)) eqn:Hnil].
  - eexists _, _. split; [done|]. by split_and!.
  - eexists _, _. split; [done|]. by split_and!.
  - eexists _, _. split; [done|]. split_and!; try done.
Qed.

Lemma step_own_body (w0 : World) (op : Op) (r : objectReadSeeker) (w : World) :
  own_body w0 r w → ∃ o r1 w1, step op r w = Some (o, r1, w1) ∧ own_body w0 r1 w1.
Proof.
  unfold own_body. intros Hown. destruct op as [p|off whence|]; simpl.
  - unfold Read. destruct (isRead r) eqn:HisRead; simpl.
    + destruct Hown as (Hrd & Hlen & Htake).
      destruct (Read_body_shape r p w _ Hrd ltac:(lia)) as (res & b' & HR & Hr & Hb & _).
      rewrite HR. simpl. eexists _, _, _. split; [done|].
      rewrite Hr, HisRead, Hb, length_insert.
      split_and!; try done. by rewrite take_insert_ge.
    + unfold getObject. destruct (fetch_script _ _) as [code|plan eager]; simpl.
      { eexists _, _, _. split; [done|]. by rewrite HisRead. }
      destruct (objects _ _ _) as [content|]; simpl.
      2:{ eexists _, _, _. split; [done|]. by rewrite HisRead. }
      match goal with |- context [Read_body ?r1 p ?w1] =>
        destruct (Read_body_shape r1 p w1 (length (bodies w))) as (res & b' & HR & Hr & Hb & _)
      end; [done|simpl; rewrite length_app; simpl; lia|].
      rewrite HR. simpl. eexists _, _, _. split; [done|]. rewrite Hr. simpl in *.
      rewrite Hb, length_insert, length_app, Hown. simpl.
      split_and!; [done|lia|].
      rewrite take_insert_ge by lia. by rewrite take_app_length.
  - eexists _, _, _. split; [done|]. done.
  - destruct (Size_frame r w) as ((_ & Hi & Hrd) & _ & _ & _ & Hbodies & _).
    destruct (Size r w) as [[[n e] r1] w1]. simpl in *.
    eexists _, _, _. split; [done|]. by rewrite Hi, Hrd, Hbodies.
Qed.

(** X2: whatever is called on a stream, it opens at most one body in all,
    it opens none before a [Read] sets [isRead], and the bodies that were
    in the world when it was made stay as they were; no call sequence runs
    into the nil reader. *)
Theorem stream_opens_at_most_one_body
    (a : API) (bucket object : string) (w0 : World) (ops : list Op) :
  ∃ os r w,
    run ops (newObjectReadSeeker a bucket object) w0 = Some (os, r, w) ∧
    (length (bodies w) ≤ S (length (bodies w0)))%nat ∧
    take (length (bodies w0)) (bodies w) = bodies w0 ∧
    (isRead r = false → bodies w = bodies w0).
Proof.
  assert (Hrun : ∀ ops r w, own_body w0 r w →
            ∃ os r1 w1, run ops r w = Some (os, r1, w1) ∧ own_body w0 r1 w1).
  { clear ops. induction ops as [|op ops IH]; intros r w Hown; simpl; [eauto|].
    destruct (step_own_body w0 op r w Hown) as (o & r1 & w1 & -> & Hown1). simpl.
    destruct (IH r1 w1 Hown1) as (os & r2 & w2 & -> & Hown2). simpl. eauto. }
  destruct (Hrun ops (newObjectReadSeeker a bucket object) w0) as (os & r & w & Hr & Hown).
  { done. }
  exists os, r, w. split; [done|]. unfold own_body in Hown.
  destruct (isRead r).
  - destruct Hown as (_ & Hlen & Htake). split_and!; [lia|done|done].
  - rewrite Hown. split_and!; [lia|by rewrite firstn_all|done].
Qed.

(** A body never delivers more than the buffer holds. *)
Lemma body_Read_le (b : Body) (cap : nat) :
  (length (fst (fst (body_Read b cap))) ≤ cap)%nat.
Proof.
  unfold body_Read, deliver.
  destruct (b_closed b); [simpl; lia|]. destruct (b_err b); [simpl; lia|].
  destruct (b_data b) as [|c d]; [simpl; lia|].
  destruct cap as [|cap]; [simpl; lia|].
  destruct (b_plan b) as [|[k|code k] plan]; cbn [fst]; rewrite length_take; lia.
Qed.

Lemma length_fill (p data : list byte) :
  (length data ≤ length p)%nat → length (fill p data) = length p.
Proof. intros Hle. unfold fill. rewrite length_app, length_drop. lia. Qed.

Lemma Read_body_bounds (r : objectReadSeeker) (p : list byte) (w : World) (res : ReadResult) :
  Read_body r p w = Some res →
  0 ≤ rr_n res ≤ Z.of_nat (length p) ∧
  length (rr_buf res) = length p ∧
  (rr_err res ≠ None → rr_err res ≠ Some EOF → rr_n res = 0) ∧
  (rr_err res ≠ None → rr_err res ≠ Some EOF → rr_bytes res = []).
Proof.
  unfold Read_body. destruct (reader r) as [h|]; simpl; [|done].
  destruct (bodies w !! h) as [b|]; simpl; [|done].
  pose proof (body_Read_le b (length p)) as Hle.
  destruct (body_Read b (length p)) as [[data err] b1]. simpl in Hle.
  destruct (is_EOF err) eqn:Heof; [|destruct (bool_decide (err ≠ None)) eqn:Hnil];
    intros [= <-]; simpl; rewrite length_fill by done.
  - split_and!; [lia|lia|done| |]; intros _ Hne; destruct err as [[]|]; done.
  - split_and!; [lia|lia|done|done|done].
  - apply bool_decide_eq_false in Hnil. split_and!; [lia|lia|done|done|done].
Qed.

(** X3: a [Read] that returns leaves the length of the buffer as it was and
    reports a count between 0 and that length; with an error other than
    io.EOF the count is 0 and the caller gets no byte, whatever the body
    had delivered. *)
Theorem Read_count_is_bounded_and_zero_on_failure
    (r : objectReadSeeker) (p : list byte) (w : World) (res : ReadResult) :
  Read r p w = Some res →
  0 ≤ rr_n res ≤ Z.of_nat (length p) ∧
  length (rr_buf res) = length p ∧
  (rr_err res ≠ None → rr_err res ≠ Some EOF → rr_n res = 0 ∧ rr_bytes res = []).
Proof.
  unfold Read.
  assert (Hbody : ∀ r1 w1, Read_body r1 p w1 = Some res →
            0 ≤ rr_n res ≤ Z.of_nat (length p) ∧ length (rr_buf res) = length p ∧
            (rr_err res ≠ None → rr_err res ≠ Some EOF → rr_n res = 0 ∧ rr_bytes res = [])).
  { intros r1 w1 H. destruct (Read_body_bounds r1 p w1 res H) as (Hn & Hlen & H0 & Hb).
    split; [exact Hn|]. split; [exact Hlen|]. intros ? ?. split; auto. }
  destruct (negb (isRead r)); [|apply Hbody].
  destruct (getObject _ _ _ _ _ _) as [[[rd st] [err|]] w1]; [|apply Hbody].
  intros [= <-]. simpl. split_and!; [lia|lia|done|done].
Qed.

Lemma Read_count_is_bounded_and_zero_on_failure_witness :
  ∃ res, Read (newObjectReadSeeker reset_api "bucket" "blob") (buf 5) World0 = Some res ∧
    rr_err res = Some (ErrTransport 104) ∧
    0 ≤ rr_n res ≤ Z.of_nat (length (buf 5)) ∧
    length (rr_buf res) = length (buf 5) ∧
    (rr_err res ≠ None → rr_err res ≠ Some EOF → rr_n res = 0 ∧ rr_bytes res = []).
Proof.
  eexists. split; [reflexivity|]. split; [reflexivity|].
  exact (Read_count_is_bounded_and_zero_on_failure
           (newObjectReadSeeker reset_api "bucket" "blob") (buf 5) World0 _ eq_refl).
Defined.

(** A [Read] that reported an error of the body leaves the stream ended. *)
Lemma Read_error_ended (r : objectReadSeeker) (p : list byte) (w : World) (res : ReadResult) :
  Read r p w = Some res → rr_err res ≠ None → isRead (rr_stream res) = true →
  ∃ ac, ended ac (rr_stream res) (rr_world res).
Proof.
  assert (Hbody : ∀ r1 w1, isRead r1 = true → Read_body r1 p w1 = Some res →
            rr_err res ≠ None → ∃ ac, ended ac (rr_stream res) (rr_world res)).
  { intros r1 w1 Hi. unfold Read_body.
    destruct (reader r1) as [h|] eqn:Hrd; simpl; [|done].
    destruct (bodies w1 !! h) as [b|] eqn:Hb; simpl; [|done].
    pose proof (lookup_lt_Some _ _ _ Hb) as Hlt.
    destruct (body_Read b (length p)) as [[data err] b1].
    destruct (is_EOF err) eqn:Heof; [|destruct (bool_decide (err ≠ None)) eqn:Hnil];
      intros [= <-]; simpl; intros Herr.
    - eexists. split; [done|]. eexists h, _. simpl.
      rewrite list_lookup_insert_eq by done. done.
    - eexists. split; [done|]. eexists h, _. simpl.
      rewrite list_lookup_insert_eq by done. done.
    - by destruct Herr. }
  unfold Read. destruct (isRead r) eqn:HisRead; simpl.
  { intros HR Herr _. by apply (Hbody r w). }
  destruct (getObject _ _ _ _ _ _) as [[[rd st] [err|]] w1].
  - intros [= <-]. simpl. congruence.
  - intros HR Herr _. refine (Hbody _ _ _ HR Herr). done.
Qed.

(** X4: once a [Read] has reported io.EOF or an error of the body, the
    stream is spent: the body it holds is closed, and whatever is called
    afterwards, [Seek] included, the caller receives no byte, every [Read]
    reports what the closed body answers (so no io.EOF, unless that answer
    is io.EOF), and no request for data is made. *)
Theorem stream_is_spent_after_terminal_Read
    (r : objectReadSeeker) (p : list byte) (w : World) (res : ReadResult) (ops : list Op) :
  Read r p w = Some res → rr_err res ≠ None → isRead (rr_stream res) = true →
  ∃ h b os r' w',
    reader (rr_stream res) = Some h ∧ bodies (rr_world res) !! h = Some b ∧
    b_closed b = true ∧
    run ops (rr_stream res) (rr_world res) = Some (os, r', w') ∧
    Forall2 (spent_answer (b_after_close b)) ops os ∧
    received os = [] ∧
    (b_after_close b ≠ EOF → eof_count os = 0%nat) ∧
    fetches w' = fetches (rr_world res) ∧ isRead r' = true.
Proof.
  intros HR Herr Hi.
  destruct (Read_error_ended r p w res HR Herr Hi) as [ac Hend].
  destruct (run_ended ac ops _ _ Hend) as (os & r' & w' & Hrun & Hall & Hf & Hend').
  destruct Hend as (_ & h & b & Hrd & Hb & Hclosed & <-).
  exists h, b, os, r', w'. split_and!; try done.
  - by apply (spent_received (b_after_close b) ops).
  - intros Hac. by apply (spent_eof_count (b_after_close b) ops).
  - by destruct Hend'.
Qed.

Lemma stream_is_spent_after_terminal_Read_witness :
  ∃ res,
    Read (newObjectReadSeeker steady_api "bucket" "blob") (buf 10) World0 = Some res ∧
    rr_err res = Some EOF ∧ isRead (rr_stream res) = true ∧
    ∃ os r' w',
      run [OpSeek 0 0; OpRead (buf 10); OpSize] (rr_stream res) (rr_world res)
        = Some (os, r', w') ∧
      Forall2 (spent_answer ErrBodyClosed) [OpSeek 0 0; OpRead (buf 10); OpSize] os ∧
      received os = [] ∧ eof_count os = 0%nat ∧
      fetches w' = 1%nat ∧ isRead r' = true.
Proof.
  eexists. split; [reflexivity|]. split; [reflexivity|]. split; [reflexivity|].
  assert (H1 : rr_err
    {| rr_n := 10; rr_err := Some EOF; rr_buf := blob;
       rr_stream := set_isRead true (set_reader (Some 0%nat)
                      (newObjectReadSeeker steady_api "bucket" "blob"));
       rr_world := {| bodies := [mkBody [] [] true None true ErrBodyClosed];
                      fetches := 1; heads := 0 |} |} ≠ None) by discriminate.
  destruct (stream_is_spent_after_terminal_Read
              (newObjectReadSeeker steady_api "bucket" "blob") (buf 10) World0 _
              [OpSeek 0 0; OpRead (buf 10); OpSize] eq_refl H1 eq_refl)
    as (h & b & os & r' & w' & Hrd & Hb & _ & Hrun & Hall & Hrec & Hc & Hf & Hi).
  injection Hrd as <-. injection Hb as <-.
  exists os, r', w'.
  split; [exact Hrun|]. split; [exact Hall|]. split; [exact Hrec|].
  split; [apply Hc; discriminate|]. split; [exact Hf | exact Hi].
Defined.

Lemma Seek_before_first_Read_witness :
  objects steady_api "bucket" "blob" = Some blob ∧
  fetch_script steady_api (fetches World0) = FetchOk [] true ErrBodyClosed ∧
  no_fail [] ∧ no_seek (replicate 9 (OpRead (buf 3))) ∧
  0 ≤ 2 ≤ Z.of_nat (length blob) ∧
  (length (drop (Z.to_nat 2) blob) < reads_with_room (replicate 9 (OpRead (buf 3))))%nat ∧
  ErrBodyClosed ≠ EOF ∧
  ∃ os r w,
    run (replicate 9 (OpRead (buf 3)))
        (snd (Seek (newObjectReadSeeker steady_api "bucket" "blob") 2 1)) World0
      = Some (os, r, w) ∧
    received os = String.list_byte_of_string "23456789" ∧ eof_count os = 1%nat.
Proof.
  assert (H1 : no_fail []) by constructor.
  assert (H2 : no_seek (replicate 9 (OpRead (buf 3)))) by (by repeat constructor).
  assert (H3 : 0 ≤ 2 ≤ Z.of_nat (length blob)) by (vm_compute; split; discriminate).
  assert (H4 : (length (drop (Z.to_nat 2) blob)
                < reads_with_room (replicate 9 (OpRead (buf 3))))%nat)
    by (vm_compute; lia).
  assert (H5 : ErrBodyClosed ≠ EOF) by discriminate.
  split; [reflexivity|]. split; [reflexivity|]. split; [exact H1|].
  split; [exact H2|]. split; [exact H3|]. split; [exact H4|]. split; [exact H5|].
  destruct (Seek_before_first_Read steady_api "bucket" "blob" blob World0 [] true
              ErrBodyClosed 2 1 (replicate 9 (OpRead (buf 3)))
              eq_refl eq_refl H1 H2 H3 H4)
    as (os & r & w & Hrun & Hrec & _ & Hone).
  exists os, r, w. split; [exact Hrun|]. split; [exact Hrec | exact (Hone H5)].
Defined.

Lemma Seek_during_fetch_is_not_seen_witness :
  let r := set_isRead true (set_reader (Some 0%nat)
             (newObjectReadSeeker steady_api "bucket" "blob")) in
  let w := {| bodies := [mkBody blob [] true None false ErrBodyClosed];
              fetches := 1; heads := 0 |} in
  isRead r = true ∧
  match Read (snd (Seek r 7 0)) (buf 4) w, Read r (buf 4) w with
  | Some res, Some res' =>
      rr_n res = rr_n res' ∧ rr_err res = rr_err res' ∧ rr_buf res = rr_buf res' ∧
      rr_world res = rr_world res'
  | None, None => True
  | _, _ => False
  end.
Proof.
  intros r w. split; [reflexivity|].
  exact (Seek_during_fetch_is_not_seen r w 7 0 (buf 4) eq_refl).
Defined.

(** ** [Read] after a fetch that could not be started *)

Lemma run_app (ops1 ops2 : list Op) (r : objectReadSeeker) (w : World) :
  run (ops1 ++ ops2) r w =
    '(os1, r1, w1) ← run ops1 r w;
    '(os2, r2, w2) ← run ops2 r1 w1;
    Some (os1 ++ os2, r2, w2).
Proof.
  revert r w. induction ops1 as [|op ops1 IH]; intros r w; simpl.
  - by destruct (run ops2 r w) as [[[os2 r2] w2]|].
  - destruct (step op r w) as [[[o r1] w1]|]; simpl; [|done].
    rewrite IH. destruct (run ops1 r1 w1) as [[[os1 r2] w2]|]; simpl; [|done].
    by destruct (run ops2 r2 w2) as [[[os2 r3] w3]|].
Qed.

(** Each [Read] whose fetch cannot be started makes one request and leaves
    the stream as it was. *)
Lemma run_failed_starts (j : nat) (p0 : list byte) (r : objectReadSeeker) (w : World) :
  isRead r = false →
  (∀ i, (i < j)%nat → ∃ code, fetch_script (api r) (fetches w + i) = FetchFails code) →
  ∃ os w', run (replicate j (OpRead p0)) r w = Some (os, r, w') ∧
    length os = j ∧
    Forall (fun o => fst o = [] ∧ ∃ code, snd o = Some (ErrTransport code)) os ∧
    fetches w' = (fetches w + j)%nat ∧ bodies w' = bodies w.
Proof.
  intros HisRead. revert w. induction j as [|j IH]; intros w Hfail; simpl.
  { eexists _, _. split; [done|]. split_and!; try done. }
  destruct (Hfail 0%nat ltac:(lia)) as [code Hcode]. rewrite Nat.add_0_r in Hcode.
  unfold Read, getObject. rewrite HisRead, Hcode. simpl.
  match goal with |- context [run _ r ?w1] => destruct (IH w1) as (os & w' & -> & Hlen & Hall & Hf & Hb) end.
  { intros i Hi. simpl. destruct (Hfail (S i) ltac:(lia)) as [c Hc].
    exists c. rewrite <- Hc. f_equal. lia. }
  simpl. eexists _, _. split; [done|]. simpl in *. split_and!; try done.
  - by rewrite Hlen.
  - constructor; [|done]. split; [done|]. eauto.
  - lia.
Qed.

Lemma received_app (os1 os2 : list Obs) : received (os1 ++ os2) = received os1 ++ received os2.
Proof. unfold received. by rewrite fmap_app, concat_app. Qed.

(** X6: a [Read] whose fetch cannot be started returns no byte and an
    error and can be repeated: when the first [j] data requests fail and
    the next one delivers, [j] [Read]s fail, each with a transport error,
    and the [Read]s after them return the whole object; io.EOF is reported,
    and reported once when the closed body answers a read with an error
    other than io.EOF. *)
Theorem Read_starts_the_fetch_again_after_failed_starts
    (a : API) (bucket object : string) (content : list byte) (w0 : World)
    (j : nat) (ac : error) (p0 : list byte) (ops : list Op) :
  objects a bucket object = Some content →
  fails_then_delivers a w0 j ac →
  no_seek ops →
  (length content < reads_with_room ops)%nat →
  ∃ os1 os2 r w,
    run (replicate j (OpRead p0) ++ ops) (newObjectReadSeeker a bucket object) w0
      = Some (os1 ++ os2, r, w) ∧
    length os1 = j ∧
    Forall (fun o => fst o = [] ∧ ∃ code, snd o = Some (ErrTransport code)) os1 ∧
    received os2 = content ∧
    (1 ≤ eof_count os2)%nat ∧ (ac ≠ EOF → eof_count os2 = 1%nat).
Proof.
  intros Hobj [Hfail (plan & eager & Hok & Hplan)] Hns Hlen.
  set (r0 := newObjectReadSeeker a bucket object).
  destruct (run_failed_starts j p0 r0 w0 eq_refl Hfail) as (os1 & w1 & Hrun1 & Hl & Hall & Hf & _).
  destruct (run_fresh ac ops content r0 w1 Hns) as (os2 & r & w & Hrun2 & Hres).
  { split; [done|]. split; [done|]. exists plan, eager. by rewrite Hf. }
  change (byte_range (offset r0) 0 content) with content in Hres.
  exists os1, os2, r, w. rewrite run_app, Hrun1. simpl. rewrite Hrun2. simpl.
  destruct Hres as [(_ & rest & _ & Hle)|(Hc & Hc1 & Hrec & _)]; [lia|].
  split_and!; done.
Qed.

Lemma Read_starts_the_fetch_again_after_failed_starts_witness :
  objects flaky_api "bucket" "blob" = Some blob ∧
  fails_then_delivers flaky_api World0 1 ErrBodyClosed ∧
  no_seek (replicate 11 (OpRead (buf 4))) ∧
  (length blob < reads_with_room (replicate 11 (OpRead (buf 4))))%nat ∧
  ErrBodyClosed ≠ EOF ∧
  ∃ os1 os2 r w,
    run (replicate 1 (OpRead (buf 4)) ++ replicate 11 (OpRead (buf 4)))
        (newObjectReadSeeker flaky_api "bucket" "blob") World0
      = Some (os1 ++ os2, r, w) ∧
    length os1 = 1%nat ∧
    Forall (fun o => fst o = [] ∧ ∃ code, snd o = Some (ErrTransport code)) os1 ∧
    received os2 = blob ∧ eof_count os2 = 1%nat.
Proof.
  assert (H1 : fails_then_delivers flaky_api World0 1 ErrBodyClosed).
  { split.
    - intros i Hi. assert (i = 0%nat) as -> by lia. by eexists.
    - exists [], true. split; [reflexivity|constructor]. }
  assert (H2 : no_seek (replicate 11 (OpRead (buf 4)))) by (by repeat constructor).
  assert (H3 : (length blob < reads_with_room (replicate 11 (OpRead (buf 4))))%nat)
    by (vm_compute; lia).
  assert (H4 : ErrBodyClosed ≠ EOF) by discriminate.
  split; [reflexivity|]. split; [exact H1|]. split; [exact H2|].
  split; [exact H3|]. split; [exact H4|].
  destruct (Read_starts_the_fetch_again_after_failed_starts flaky_api "bucket" "blob" blob
              World0 1 ErrBodyClosed (buf 4) (replicate 11 (OpRead (buf 4)))
              eq_refl H1 H2 H3)
    as (os1 & os2 & r & w & Hrun & Hlen & Hall & Hrec & _ & Hone).
  exists os1, os2, r, w.
  split; [exact Hrun|]. split; [exact Hlen|]. split; [exact Hall|].
  split; [exact Hrec | exact (Hone H4)].
Defined.

(** * Further properties of the temporary file *)

(** ** The names [ioutil.TempFile] makes *)

Lemma pretty_N_char_digit (x : N) : is_digit (pretty_N_char x) = true.
Proof. unfold pretty_N_char. by repeat case_match. Qed.

Lemma pretty_N_go_digits (x : N) (s : string) :
  all_digits s = true → all_digits (pretty_N_go x s) = true.
Proof.
  revert s. induction (N.lt_wf_0 x) as [x _ IH]. intros s Hs.
  destruct (decide (x = 0)%N) as [->|Hx]; [by rewrite pretty_N_go_0|].
  rewrite pretty_N_go_step by lia. apply IH.
  - apply N.div_lt; lia.
  - simpl. by rewrite pretty_N_char_digit.
Qed.

Lemma pretty_nat_digits (n : nat) : all_digits (pretty n) = true.
Proof.
  unfold pretty, pretty_nat, pretty, pretty_N.
  destruct (decide _); [done|]. by apply pretty_N_go_digits.
Qed.

Lemma digit_is_plain (c : ascii) :
  is_digit c = true → filepath.is_meta c = false ∧ filepath.is_sep c = false.
Proof. destruct c as [[] [] [] [] [] [] [] []]; done. Qed.

Lemma hasMeta_append (a b : string) :
  filepath.hasMeta (String.append a b) = filepath.hasMeta a || filepath.hasMeta b.
Proof.
  induction a as [|c a IH]; [done|].
  change (String.append (String c a) b) with (String c (String.append a b)).
  simpl. by rewrite IH, orb_assoc.
Qed.

Lemma has_sep_append (a b : string) :
  filepath.has_sep (String.append a b) = filepath.has_sep a || filepath.has_sep b.
Proof.
  induction a as [|c a IH]; [done|].
  change (String.append (String c a) b) with (String c (String.append a b)).
  simpl. by rewrite IH, orb_assoc.
Qed.

Lemma digits_are_plain (d : string) :
  all_digits d = true → filepath.hasMeta d = false ∧ filepath.has_sep d = false.
Proof.
  induction d as [|c d IH]; [done|]. simpl.
  intros [Hc Hd]%andb_true_iff. destruct (digit_is_plain c Hc) as [-> ->].
  by destruct (IH Hd) as [-> ->].
Qed.

(** A plain prefix followed by digits is a plain name that starts with the
    prefix. *)
Lemma plain_name_append_digits (prefix d : string) :
  filepath.plain_name prefix = true → all_digits d = true →
  filepath.plain_name (String.append prefix d) = true.
Proof.
  intros (Hm & Hs & H0 & H1 & H2)%plain_name_inv Hd.
  destruct (digits_are_plain d Hd) as [Hdm Hds].
  unfold filepath.plain_name.
  rewrite hasMeta_append, has_sep_append, Hm, Hs, Hdm, Hds. simpl.
  apply negb_true_iff, bool_decide_eq_false.
  destruct prefix as [|c [|c2 rest]]; [done| |].
  - change (String.append (String c "") d) with (String c d).
    intros [H|[H|H]]; [done| |].
    + injection H as -> ->. done.
    + injection H as -> ->. done.
  - change (String.append (String c (String c2 rest)) d)
      with (String c (String c2 (String.append rest d))).
    intros [H|[H|H]]; [done|done|].
    injection H as -> -> H. destruct rest; [done|]. discriminate H.
Qed.

Lemma prefix_append (p s : string) : String.prefix p (String.append p s) = true.
Proof.
  induction p as [|c p IH]; [by destruct s|].
  change (String.append (String c p) s) with (String c (String.append p s)).
  simpl. destruct (ascii_dec c c); done.
Qed.

(** ** [newTempFile] *)

(** X7: a resource that [newTempFile] returns owns one new regular file:
    its path did not exist before, it is the only change to the entries of
    the file system, and its descriptor is open; with a plain prefix the
    file is an entry of the temporary directory whose name is plain and
    starts with the prefix. *)
Theorem newTempFile_creates_one_fresh_file
    (prefix : string) (fs fs1 : os.FS) (t : tempFile) :
  newTempFile prefix fs = ((Some t, None), fs1) →
  ∃ f, File t = Some f ∧
    os.nodes fs !! os.Name f = None ∧
    os.nodes fs1 = <[os.Name f := os.RegularFile]> (os.nodes fs) ∧
    os.fd f ∈ os.open_fds fs1 ∧
    (filepath.plain_name prefix = true →
       ∃ n, os.Name f = os.TempDir fs ++ [n] ∧ String.prefix prefix n = true ∧
            filepath.plain_name n = true).
Proof.
  unfold newTempFile, ioutil.TempFile.
  destruct (ioutil.TempFile_try _ _ _ _) as [[o [e|]] fs2] eqn:Htry; [done|].
  intros [= <- <-].
  destruct (TempFile_try_spec _ _ _ _ _ _ _ Htry)
    as (_ & _ & f & k & -> & Hname & Hfd & Hnone & _ & _ & Hnodes & Hfds).
  clear Htry. exists f.
  split; [reflexivity|]. split; [exact Hnone|]. split; [exact Hnodes|]. split.
  - rewrite Hfds. apply elem_of_union. left. by apply elem_of_singleton.
  - intros Hplain.
    pose proof (plain_name_append_digits prefix (pretty k) Hplain (pretty_nat_digits k)) as Hn.
    exists (String.append prefix (pretty k)). split_and!; [|apply prefix_append|done].
    by rewrite Hname, Join_plain.
Qed.

Lemma newTempFile_creates_one_fresh_file_witness :
  let t := {| File := Some {| os.Name := ["tmp"; "up-41"]%string; os.fd := 3 |} |} in
  let fs1 := snd (newTempFile "up-" fs0) in
  newTempFile "up-" fs0 = ((Some t, None), fs1) ∧
  ∃ f, File t = Some f ∧
    os.nodes fs0 !! os.Name f = None ∧
    os.nodes fs1 = <[os.Name f := os.RegularFile]> (os.nodes fs0) ∧
    os.fd f ∈ os.open_fds fs1 ∧
    (filepath.plain_name "up-" = true →
       ∃ n, os.Name f = os.TempDir fs0 ++ [n] ∧ String.prefix "up-" n = true ∧
            filepath.plain_name n = true).
Proof.
  intros t fs1.
  assert (H : newTempFile "up-" fs0 = ((Some t, None), fs1)) by (vm_compute; reflexivity).
  split; [exact H | exact (newTempFile_creates_one_fresh_file "up-" fs0 fs1 t H)].
Defined.

(** X8: when [newTempFile] fails it returns no resource and has created
    no entry and left no descriptor open. *)
Theorem newTempFile_failure_creates_nothing
    (prefix : string) (fs fs1 : os.FS) (o : option tempFile) (e : error) :
  newTempFile prefix fs = ((o, Some e), fs1) →
  o = None ∧ os.nodes fs1 = os.nodes fs ∧ os.open_fds fs1 = os.open_fds fs.
Proof.
  unfold newTempFile, ioutil.TempFile.
  destruct (ioutil.TempFile_try _ _ _ _) as [[o1 [e1|]] fs2] eqn:Htry; [|done].
  intros [= <- _ <-].
  destruct (TempFile_try_spec _ _ _ _ _ _ _ Htry) as (_ & _ & _ & Hnodes & Hfds).
  clear Htry. done.
Qed.

Lemma newTempFile_failure_creates_nothing_witness :
  newTempFile "up-" fs_without_tmp
    = ((None, Some ErrNotExist), snd (newTempFile "up-" fs_without_tmp)) ∧
  None = (None : option tempFile) ∧
  os.nodes (snd (newTempFile "up-" fs_without_tmp)) = os.nodes fs_without_tmp ∧
  os.open_fds (snd (newTempFile "up-" fs_without_tmp)) = os.open_fds fs_without_tmp.
Proof.
  assert (H : newTempFile "up-" fs_without_tmp
                = ((None, Some ErrNotExist), snd (newTempFile "up-" fs_without_tmp)))
    by (vm_compute; reflexivity).
  split; [exact H|].
  exact (newTempFile_failure_creates_nothing "up-" fs_without_tmp _ None ErrNotExist H).
Defined.

(** ** [Close] *)

(** X9: a [Close] that succeeds on a resource that owns a file had its
    descriptor open and its path in the file system; it closes that
    descriptor, removes that path, and changes nothing else. *)
Theorem Close_removes_only_its_file
    (t t' : tempFile) (f : os.File) (fs fs' : os.FS) :
  File t = Some f → Close t fs = (None, t', fs') →
  os.fd f ∈ os.open_fds fs ∧ is_Some (os.nodes fs !! os.Name f) ∧
  os.nodes fs' = delete (os.Name f) (os.nodes fs) ∧
  os.open_fds fs' = os.open_fds fs ∖ {[os.fd f]} ∧
  os.locked fs' = os.locked fs ∧ os.tmpdir fs' = os.tmpdir fs.
Proof.
  intros Hf. unfold Close. rewrite Hf. unfold os.File_Close.
  destruct (bool_decide_reflect (os.fd f ∈ os.open_fds fs)) as [Hin|Hnin]; [|done].
  destruct (os.Remove (os.Name f) _) as [[e|] fs2] eqn:Hrm; [done|].
  intros [= <- <-]. pose proof (Remove_ok _ _ _ Hrm) as ->. simpl.
  split_and!; try done.
  unfold os.Remove in Hrm. simpl in Hrm.
  destruct (os.nodes fs !! os.Name f); [eauto|done].
Qed.

Lemma Close_removes_only_its_file_witness :
  let f := {| os.Name := ["tmp"; "decoy"]%string; os.fd := 7 |} in
  let t := {| File := Some f |} in
  File t = Some f ∧
  Close t fs_abc_open = (None, {| File := None |}, snd (Close t fs_abc_open)) ∧
  os.fd f ∈ os.open_fds fs_abc_open ∧
  is_Some (os.nodes fs_abc_open !! os.Name f) ∧
  os.nodes (snd (Close t fs_abc_open)) = delete (os.Name f) (os.nodes fs_abc_open) ∧
  os.open_fds (snd (Close t fs_abc_open)) = os.open_fds fs_abc_open ∖ {[os.fd f]} ∧
  os.locked (snd (Close t fs_abc_open)) = os.locked fs_abc_open ∧
  os.tmpdir (snd (Close t fs_abc_open)) = os.tmpdir fs_abc_open.
Proof.
  intros f t.
  assert (H : Close t fs_abc_open = (None, {| File := None |}, snd (Close t fs_abc_open)))
    by (vm_compute; reflexivity).
  split; [reflexivity|]. split; [exact H|].
  exact (Close_removes_only_its_file t _ f fs_abc_open _ eq_refl H).
Defined.

(** X10: a [Close] that fails leaves the resource the owner of its file
    and the entries of the file system as they were; the descriptor is
    closed by then, so the same [Close] again fails with "file already
    closed" and changes nothing: the file is not removed by a retry. *)
Theorem failed_Close_keeps_the_file_and_fails_again
    (t t' : tempFile) (fs fs' : os.FS) (e : error) :
  Close t fs = (Some e, t', fs') →
  t' = t ∧ os.nodes fs' = os.nodes fs ∧
  Close t' fs' = (Some ErrFileClosed, t', fs').
Proof.
  unfold Close at 1. destruct (File t) as [f|] eqn:Hf; [|done].
  unfold os.File_Close.
  destruct (bool_decide_reflect (os.fd f ∈ os.open_fds fs)) as [Hin|Hnin].
  - destruct (os.Remove (os.Name f) _) as [[e1|] fs2] eqn:Hrm; [|done].
    intros [= <- <- <-]. pose proof (Remove_failed _ _ _ _ Hrm) as ->. simpl.
    split_and!; try done.
    unfold Close, os.File_Close. rewrite Hf. simpl.
    rewrite bool_decide_eq_false_2; [done|].
    intros [_ Hn]%elem_of_difference. apply Hn. by apply elem_of_singleton.
  - intros [= <- <- <-]. split_and!; try done.
    unfold Close, os.File_Close. rewrite Hf.
    by rewrite bool_decide_eq_false_2.
Qed.

Lemma failed_Close_keeps_the_file_and_fails_again_witness :
  Close t_abc fs_abc_open = (Some ErrPermission, t_abc, snd (Close t_abc fs_abc_open)) ∧
  t_abc = t_abc ∧
  os.nodes (snd (Close t_abc fs_abc_open)) = os.nodes fs_abc_open ∧
  Close t_abc (snd (Close t_abc fs_abc_open))
    = (Some ErrFileClosed, t_abc, snd (Close t_abc fs_abc_open)).
Proof.
  assert (H : Close t_abc fs_abc_open
                = (Some ErrPermission, t_abc, snd (Close t_abc fs_abc_open)))
    by (vm_compute; reflexivity).
  split; [exact H|].
  exact (failed_Close_keeps_the_file_and_fails_again t_abc t_abc fs_abc_open _ _ H).
Defined.

(** X11: [newTempFile] followed by [Close] is a round trip on the entries
    of the file system: the [Close] succeeds unless the system refuses to
    remove the new path, and when it succeeds the entries are those from
    before [newTempFile] and the resource owns nothing. *)
Theorem newTempFile_then_Close_restores_the_entries
    (prefix : string) (fs fs1 : os.FS) (t : tempFile) :
  newTempFile prefix fs = ((Some t, None), fs1) →
  ∃ f, File t = Some f ∧
    (os.Name f ∉ os.locked fs → fst (fst (Close t fs1)) = None) ∧
    (fst (fst (Close t fs1)) = None →
       os.nodes (snd (Close t fs1)) = os.nodes fs ∧
       File (snd (fst (Close t fs1))) = None).
Proof.
  unfold newTempFile, ioutil.TempFile.
  destruct (ioutil.TempFile_try _ _ _ _) as [[o [e|]] fs2] eqn:Htry; [done|].
  intros [= <- <-].
  destruct (TempFile_try_spec _ _ _ _ _ _ _ Htry)
    as (Hl & _ & f & k & -> & _ & _ & Hnone & _ & _ & Hnodes & Hfds).
  clear Htry. exists f. split; [done|]. unfold Close, os.File_Close. simpl.
  rewrite bool_decide_eq_true_2
    by (rewrite Hfds; apply elem_of_union; left; by apply elem_of_singleton).
  unfold os.Remove. simpl. rewrite Hnodes, lookup_insert_eq, Hl.
  destruct (bool_decide_reflect (os.Name f ∈ os.locked fs)) as [Hin|Hnin]; simpl.
  - split; [done|]. done.
  - split; [done|]. intros _. split; [|done]. by apply delete_insert_id.
Qed.

Lemma newTempFile_then_Close_restores_the_entries_witness :
  let t := {| File := Some {| os.Name := ["tmp"; "up-41"]%string; os.fd := 3 |} |} in
  let fs1 := snd (newTempFile "up-" fs0) in
  newTempFile "up-" fs0 = ((Some t, None), fs1) ∧
  ∃ f, File t = Some f ∧
    (os.Name f ∉ os.locked fs0 → fst (fst (Close t fs1)) = None) ∧
    (fst (fst (Close t fs1)) = None →
       os.nodes (snd (Close t fs1)) = os.nodes fs0 ∧
       File (snd (fst (Close t fs1))) = None).
Proof.
  intros t fs1.
  assert (H : newTempFile "up-" fs0 = ((Some t, None), fs1)) by (vm_compute; reflexivity).
  split; [exact H | exact (newTempFile_then_Close_restores_the_entries "up-" fs0 fs1 t H)].
Defined.

(** ** [cleanupStaleTempfiles] *)

Lemma removed_from_nil (fs : os.FS) : removed_from [] fs = fs.
Proof. by destruct fs. Qed.

Lemma removed_from_subseteq (removed : list (list string)) (fs : os.FS) :
  os.nodes (removed_from removed fs) ⊆ os.nodes fs.
Proof.
  apply map_subseteq_spec. intros q k. simpl. rewrite lookup_removed.
  by destruct (bool_decide _).
Qed.

(** X12: for every prefix, pattern or not, the sweep only removes: what is
    gone afterwards is a front part of the list [Glob] returned, every
    entry left is as it was, and nothing else of the file system changes;
    when [Glob] reports an error, that error is returned and nothing is
    removed. *)
Theorem cleanup_only_removes_what_Glob_returned (prefix : string) (fs : os.FS) :
  let globbed :=
    filepath.Glob (filepath.add_suffix (filepath.Join (os.TempDir fs) prefix) "*") fs in
  ∃ removed,
    snd (cleanupStaleTempfiles prefix fs) = removed_from removed fs ∧
    removed `prefix_of` fst globbed ∧
    os.nodes (snd (cleanupStaleTempfiles prefix fs)) ⊆ os.nodes fs ∧
    (snd globbed ≠ None → cleanupStaleTempfiles prefix fs = (snd globbed, fs)).
Proof.
  intros globbed. unfold cleanupStaleTempfiles. fold globbed.
  destruct globbed as [l [e|]]; simpl.
  - exists []. rewrite removed_from_nil. split_and!; try done. apply prefix_nil.
  - destruct (remove_each_spec l fs) as (removed & Hfs & Hres).
    exists removed. rewrite Hfs. split_and!; try done.
    + destruct (fst (remove_each l fs)).
      * destruct Hres as (q & rest & -> & _). by eexists.
      * by rewrite Hres.
    + apply removed_from_subseteq.
Qed.

Lemma Lexists_ext (fs fs' : os.FS) (q : list string) :
  os.nodes fs' !! q = os.nodes fs !! q → os.Lexists fs' q = os.Lexists fs q.
Proof. intros H. destruct q; simpl; [done|]. by rewrite H. Qed.

Lemma IsDir_ext (fs fs' : os.FS) (q : list string) :
  os.nodes fs' !! q = os.nodes fs !! q → os.IsDir fs' q = os.IsDir fs q.
Proof. intros H. destruct q; simpl; [done|]. by rewrite H. Qed.

(** The temporary directory stays in order when only its entries change
    and the new entries have names without separator. *)
Lemma tempdir_ok_preserved (fs fs' : os.FS) :
  tempdir_ok fs = true → os.tmpdir fs' = os.tmpdir fs →
  (∀ k, os.nodes fs' !! take k (os.tmpdir fs) = os.nodes fs !! take k (os.tmpdir fs)) →
  (∀ n, is_Some (os.nodes fs' !! (os.tmpdir fs ++ [n])) →
        filepath.has_sep n = false ∨ is_Some (os.nodes fs !! (os.tmpdir fs ++ [n]))) →
  tempdir_ok fs' = true.
Proof.
  unfold tempdir_ok, os.TempDir. intros Hok Htmp Hup Hnew. rewrite Htmp.
  apply andb_true_iff in Hok as [[[H1 H2]%andb_true_iff H3]%andb_true_iff H4].
  rewrite forallb_forall in H2, H4.
  repeat (apply andb_true_iff; split); [done| | |].
  - apply forallb_forall. intros k Hk. rewrite (Lexists_ext fs fs') by apply Hup. auto.
  - rewrite <- H3. apply IsDir_ext.
    pose proof (Hup (length (os.tmpdir fs))) as Hself.
    by rewrite firstn_all in Hself.
  - apply forallb_forall. intros n Hn. apply list_elem_of_In in Hn.
    apply elem_of_Readdirnames in Hn. destruct (Hnew n Hn) as [Hsep|Hold].
    + by rewrite Hsep.
    + apply H4. apply list_elem_of_In. by apply elem_of_Readdirnames.
Qed.

Lemma cleanup_plain_success (prefix : string) (fs : os.FS) :
  filepath.plain_name prefix = true → tempdir_ok fs = true →
  fst (cleanupStaleTempfiles prefix fs) = None →
  snd (cleanupStaleTempfiles prefix fs) = removed_from (stale prefix fs) fs.
Proof.
  intros Hplain Hok. unfold cleanupStaleTempfiles.
  rewrite (Glob_plain prefix fs Hplain Hok).
  destruct (remove_each_spec (stale prefix fs) fs) as (removed & Hfs & Hres).
  intros Hnone. rewrite Hnone in Hres. by subst removed.
Qed.

(** ** The sweep on a file system with fewer entries *)

Lemma IsDir_mono (fs fs' : os.FS) (q : list string) :
  os.nodes fs' ⊆ os.nodes fs → os.IsDir fs' q = true → os.IsDir fs q = true.
Proof.
  intros Hsub. destruct q as [|c q]; simpl; [done|].
  rewrite !bool_decide_eq_true. intros H. by apply (lookup_weaken _ _ _ _ H).
Qed.

Lemma Lexists_mono (fs fs' : os.FS) (q : list string) :
  os.nodes fs' ⊆ os.nodes fs → os.Lexists fs' q = true → os.Lexists fs q = true.
Proof.
  intros Hsub. destruct q as [|c q]; simpl; [done|].
  rewrite !bool_decide_eq_true. intros H. by apply (lookup_weaken_is_Some _ _ _ H).
Qed.

Lemma glob_component_mono (fs fs' : os.FS) (c : string) (dir q : list string) :
  os.nodes fs' ⊆ os.nodes fs →
  q ∈ filepath.glob_component fs' c dir → q ∈ filepath.glob_component fs c dir.
Proof.
  intros Hsub. unfold filepath.glob_component. destruct (filepath.hasMeta c).
  - destruct (os.IsDir fs' dir) eqn:Hdir; [|by intros ?%elem_of_nil].
    rewrite (IsDir_mono fs fs' dir Hsub Hdir).
    rewrite !list_elem_of_fmap. intros (n & -> & Hn). exists n. split; [done|].
    apply list_elem_of_filter in Hn as [Hm Hn]. apply list_elem_of_filter. split; [done|].
    rewrite merge_sort_Permutation in Hn. rewrite merge_sort_Permutation.
    apply elem_of_Readdirnames in Hn. apply elem_of_Readdirnames.
    by apply (lookup_weaken_is_Some _ _ _ Hn).
  - destruct (os.Lexists fs' (dir ++ [c])) eqn:Hex; [|by intros ?%elem_of_nil].
    by rewrite (Lexists_mono fs fs' _ Hsub Hex).
Qed.

(** What [Glob] finds in a file system with fewer entries, it finds in the
    file system with more. *)
Lemma glob_walk_mono (fs fs' : os.FS) (pattern : list string)
    (dirs dirs' : list (list string)) (q : list string) :
  os.nodes fs' ⊆ os.nodes fs → (∀ d, d ∈ dirs' → d ∈ dirs) →
  q ∈ foldl (fun dirs c => dirs ≫= filepath.glob_component fs' c) dirs' pattern →
  q ∈ foldl (fun dirs c => dirs ≫= filepath.glob_component fs c) dirs pattern.
Proof.
  intros Hsub. revert dirs dirs'.
  induction pattern as [|c pattern IH]; intros dirs dirs' Hdirs; simpl; [by auto|].
  apply IH. intros d (y & Hd & Hy)%list_elem_of_bind.
  apply list_elem_of_bind. exists y. split; [|by auto].
  by apply (glob_component_mono fs fs').
Qed.

(** What [Glob] returns for a pattern with at least one component exists. *)
Lemma glob_walk_exists (fs : os.FS) (pattern : list string)
    (dirs : list (list string)) (q : list string) :
  pattern ≠ [] →
  q ∈ foldl (fun dirs c => dirs ≫= filepath.glob_component fs c) dirs pattern →
  is_Some (os.nodes fs !! q).
Proof.
  destruct pattern as [|c pattern _] using rev_ind; [done|]. intros _.
  rewrite foldl_app. simpl. intros (d & Hq & _)%list_elem_of_bind. revert Hq.
  unfold filepath.glob_component. destruct (filepath.hasMeta c).
  - destruct (os.IsDir fs d); [|by intros ?%elem_of_nil].
    rewrite list_elem_of_fmap. intros (n & -> & Hn).
    apply list_elem_of_filter in Hn as [_ Hn]. rewrite merge_sort_Permutation in Hn.
    by apply elem_of_Readdirnames.
  - destruct (os.Lexists fs (d ++ [c])) eqn:Hex; [|by intros ?%elem_of_nil].
    intros ->%list_elem_of_singleton. unfold os.Lexists in Hex.
    destruct (d ++ [c]) as [|x l] eqn:E; [by destruct d|].
    by apply bool_decide_eq_true in Hex.
Qed.

Lemma add_suffix_not_nil (path : list string) (s : string) :
  filepath.add_suffix path s ≠ [].
Proof.
  unfold filepath.add_suffix. destruct path as [|c path]; [done|].
  intros H. apply (f_equal length) in H. rewrite length_app in H. simpl in H. lia.
Qed.

(** A sweep that succeeded removed all that [Glob] returned. *)
Lemma cleanup_success (prefix : string) (fs : os.FS) :
  fst (cleanupStaleTempfiles prefix fs) = None →
  ∃ found,
    filepath.Glob (filepath.add_suffix (filepath.Join (os.TempDir fs) prefix) "*") fs
      = (found, None) ∧
    snd (cleanupStaleTempfiles prefix fs) = removed_from found fs.
Proof.
  unfold cleanupStaleTempfiles.
  destruct (filepath.Glob _ fs) as [found [e|]]; simpl; [done|].
  destruct (remove_each_spec found fs) as (removed & Hfs & Hres).
  intros Hnone. rewrite Hnone in Hres. subst removed. by exists found.
Qed.

(** X13: a sweep that succeeded has nothing left to do, whatever the
    prefix and the file system are: the same sweep again removes nothing
    and succeeds. *)
Theorem cleanup_again_after_success_changes_nothing (prefix : string) (fs : os.FS) :
  fst (cleanupStaleTempfiles prefix fs) = None →
  cleanupStaleTempfiles prefix (snd (cleanupStaleTempfiles prefix fs))
    = (None, snd (cleanupStaleTempfiles prefix fs)).
Proof.
  intros Hnone. destruct (cleanup_success prefix fs Hnone) as (found & Hglob & ->).
  set (fs' := removed_from found fs).
  unfold cleanupStaleTempfiles.
  change (os.TempDir fs') with (os.TempDir fs).
  set (pattern := filepath.add_suffix (filepath.Join (os.TempDir fs) prefix) "*") in *.
  revert Hglob. unfold filepath.Glob.
  destruct (forallb _ pattern); [|done]. intros [= Hfound].
  destruct (foldl _ [[]] pattern) as [|q l] eqn:E in |- *; [done|]. exfalso.
  assert (Hq : q ∈ foldl (fun dirs c => dirs ≫= filepath.glob_component fs' c)
                        [[]] pattern) by (rewrite E; left).
  pose proof (glob_walk_exists fs' pattern _ q (add_suffix_not_nil _ _) Hq) as Hex.
  apply (glob_walk_mono fs fs' pattern [[]] [[]] q) in Hq;
    [|apply removed_from_subseteq|done].
  rewrite Hfound in Hq. unfold fs' in Hex. simpl in Hex.
  rewrite lookup_removed, bool_decide_eq_true_2 in Hex by done.
  by destruct Hex.
Qed.

Lemma cleanup_again_after_success_changes_nothing_witness :
  fst (cleanupStaleTempfiles "d?" fs0) = None ∧
  os.nodes (snd (cleanupStaleTempfiles "d?" fs0)) ≠ os.nodes fs0 ∧
  cleanupStaleTempfiles "d?" (snd (cleanupStaleTempfiles "d?" fs0))
    = (None, snd (cleanupStaleTempfiles "d?" fs0)).
Proof.
  assert (H : fst (cleanupStaleTempfiles "d?" fs0) = None) by (vm_compute; reflexivity).
  split; [exact H|]. split.
  - intros Heq. apply (f_equal (fun m => m !! ["tmp"; "decoy"]%string)) in Heq.
    vm_compute in Heq. discriminate Heq.
  - exact (cleanup_again_after_success_changes_nothing "d?" fs0 H).
Defined.

(** X14: in a file system whose temporary directory exists and has a
    path without pattern character (and entries named without separator),
    a file that [newTempFile] made with a plain prefix and that was never
    released is stale for that prefix: the sweep with the same prefix has
    it on its list, and when the sweep succeeds the file no longer
    exists. *)
Theorem leftover_temp_file_is_swept
    (prefix : string) (fs fs1 : os.FS) (t : tempFile) :
  filepath.plain_name prefix = true → tempdir_ok fs = true →
  newTempFile prefix fs = ((Some t, None), fs1) →
  ∃ f, File t = Some f ∧ os.Name f ∈ stale prefix fs1 ∧
    (fst (cleanupStaleTempfiles prefix fs1) = None →
     os.Lexists (snd (cleanupStaleTempfiles prefix fs1)) (os.Name f) = false).
Proof.
  intros Hplain Hok. unfold newTempFile, ioutil.TempFile.
  destruct (ioutil.TempFile_try _ _ _ _) as [[o [e|]] fs2] eqn:Htry; [done|].
  intros [= <- ->].
  destruct (TempFile_try_spec _ _ _ _ _ _ _ Htry)
    as (_ & Htmp & f & k & -> & Hname & _ & Hnone & Hne & _ & Hnodes & _).
  clear Htry.
  pose proof (plain_name_append_digits prefix (pretty k) Hplain (pretty_nat_digits k)) as Hn.
  rewrite (Join_plain _ _ Hn) in Hname. unfold os.TempDir in Hname.
  destruct (plain_name_inv _ Hn) as (_ & Hsep & _).
  assert (Hok1 : tempdir_ok fs1 = true).
  { apply (tempdir_ok_preserved fs fs1 Hok Htmp).
    - intros j. rewrite Hnodes. apply lookup_insert_ne. rewrite Hname.
      intros Heq. apply (f_equal length) in Heq.
      rewrite length_take, length_app in Heq. simpl in Heq. lia.
    - intros n. rewrite Hnodes, Hname.
      intros [Heq|[_ Hold]]%lookup_insert_is_Some; [|by right].
      left. apply app_inj_tail in Heq as [_ <-]. done. }
  assert (Hin : os.Name f ∈ stale prefix fs1).
  { apply elem_of_stale. exists (String.append prefix (pretty k)).
    unfold os.TempDir. rewrite Htmp, Hnodes, lookup_insert_eq.
    split_and!; [done|by eexists|apply prefix_append]. }
  exists f. split_and!; [done|done|].
  intros Hnone'. rewrite (cleanup_plain_success prefix fs1 Hplain Hok1 Hnone').
  unfold os.Lexists. destruct (os.Name f) as [|c q] eqn:E; [done|].
  apply bool_decide_eq_false. simpl. rewrite lookup_removed.
  rewrite bool_decide_eq_true_2 by done. by intros [? ?].
Qed.

Lemma leftover_temp_file_is_swept_witness :
  let f := {| os.Name := ["tmp"; "up-41"]%string; os.fd := 3 |} in
  let t := {| File := Some f |} in
  let fs1 := snd (newTempFile "up-" fs0) in
  filepath.plain_name "up-" = true ∧ tempdir_ok fs0 = true ∧
  newTempFile "up-" fs0 = ((Some t, None), fs1) ∧
  os.Name f ∈ stale "up-" fs1 ∧
  os.Lexists fs1 (os.Name f) = true ∧
  fst (cleanupStaleTempfiles "up-" fs1) = None ∧
  os.Lexists (snd (cleanupStaleTempfiles "up-" fs1)) (os.Name f) = false.
Proof.
  intros f t fs1.
  assert (H1 : filepath.plain_name "up-" = true) by (vm_compute; reflexivity).
  assert (H2 : tempdir_ok fs0 = true) by (vm_compute; reflexivity).
  assert (H3 : newTempFile "up-" fs0 = ((Some t, None), fs1)) by (vm_compute; reflexivity).
  assert (H4 : fst (cleanupStaleTempfiles "up-" fs1) = None) by (vm_compute; reflexivity).
  split; [exact H1|]. split; [exact H2|]. split; [exact H3|].
  destruct (leftover_temp_file_is_swept "up-" fs0 fs1 t H1 H2 H3)
    as (f' & Hf & Hin & Hgone).
  injection Hf as <-.
  split; [exact Hin|]. split; [vm_compute; reflexivity|].
  split; [exact H4 | exact (Hgone H4)].
Defined.
